(** * One-time pad (pad.py): shallow embedding and verified properties

    The development follows pad.py function by function.  Arrays of
    dtype uint8 are lists of bytes, boolean arrays are lists of booleans,
    arrays of dtype uint64 are lists of integers kept below 2^64 by an
    explicit cast.  Python exceptions are values of [exn]; code that
    mutates an array in place or draws from the entropy source runs in a
    state-and-exception monad whose state survives a raise, as the
    mutated numpy array does. *)

From Stdlib Require Import ZArith Lia List String Ascii.
From Stdlib.Strings Require Import Byte.
From stdpp Require Import base list gmap strings sorting.

(** ** Exceptions and results *)

Inductive exn : Set :=
| IndexError
| ValueError
| KeyError
| BinasciiError
| ZlibError
| JSONDecodeError.

Inductive result (A : Type) : Type :=
| Ok (a : A)
| Raise (e : exn).
Arguments Ok {A} a.
Arguments Raise {A} e.

Definition result_bind {A B} (m : result A) (k : A → result B) : result B :=
  match m with
  | Ok a => k a
  | Raise e => Raise e
  end.

Notation "'do' x <- m ; k" := (result_bind m (λ x, k))
  (at level 10, x name, m at level 100, k at level 200).

Fixpoint result_map {A B} (f : A → result B) (l : list A) : result (list B) :=
  match l with
  | [] => Ok []
  | x :: l' => do y <- f x ; do ys <- result_map f l' ; Ok (y :: ys)
  end.

(** State and exception monad: the state is what a raise leaves behind. *)

Definition M (S A : Type) : Type := S → result A * S.

Definition ret {S A} (a : A) : M S A := λ s, (Ok a, s).

Definition bind {S A B} (m : M S A) (k : A → M S B) : M S B :=
  λ s, match m s with
       | (Ok a, s') => k a s'
       | (Raise e, s') => (Raise e, s')
       end.

Definition lift {S A} (r : result A) : M S A := λ s, (r, s).

Notation "'do' x <~ m ; k" := (bind m (λ x, k))
  (at level 10, x name, m at level 100, k at level 200).

Fixpoint for_each {S A B} (f : A → M S B) (l : list A) : M S (list B) :=
  match l with
  | [] => ret []
  | x :: l' => do y <~ f x ; do ys <~ for_each f l' ; ret (y :: ys)
  end.

(** ** Entropy source (Crypto.Random.random)

    The operating system's entropy is a tape of naturals read left to
    right; every behaviour of the real source is the behaviour of some
    tape. *)

Record rng : Type := Rng { tape : nat → N; cursor : nat }.

Definition draw (r : rng) : Z * rng :=
  (Z.of_N (tape r (cursor r)), Rng (tape r) (S (cursor r))).

(** ** Bytes and fixed-width integers *)

Definition byte_to_Z (b : byte) : Z := Z.of_N (Byte.to_N b).

Definition byte_of_Z (z : Z) : byte :=
  match Byte.of_N (Z.to_N (z mod 256)) with
  | Some b => b
  | None => x00
  end.

#[global] Instance byte_eq_decision : EqDecision byte := Byte.byte_eq_dec.

#[global] Instance byte_countable : Countable byte :=
  inj_countable Byte.to_N Byte.of_N Byte.of_to_N.

(** dtype_pad = np.uint8, dtype_message = np.uint64 *)
Inductive dtype : Set := uint8 | bool_ | uint64.

Definition dtype_pad : dtype := uint8.
Definition dtype_message : dtype := uint64.
Definition default_pad_length : Z := 1000000.

Definition ndarray (dt : dtype) : Type :=
  match dt with
  | uint8 => list byte
  | bool_ => list bool
  | uint64 => list Z
  end.

(** Conversion of a Python int to uint8 / uint64 wraps around. *)
Definition astype_uint8 (x : Z) : byte := byte_of_Z (x mod 256).
Definition astype_uint64 (x : Z) : Z := x mod 2 ^ 64.

Definition is_uint64 (x : Z) : Prop := (0 ≤ x < 2 ^ 64)%Z.

(** Index arrays are cast to intp (signed 64 bit) before they are used. *)
Definition astype_intp (x : Z) : Z :=
  if decide (x mod 2 ^ 64 < 2 ^ 63)%Z then (x mod 2 ^ 64)%Z
  else (x mod 2 ^ 64 - 2 ^ 64)%Z.

(** A str is its sequence of code points. *)
Definition str : Type := list N.

Definition ord (c : N) : Z := Z.of_N c.

Definition chr (i : Z) : result N :=
  if decide (0 ≤ i < 1114112)%Z then Ok (Z.to_N i) else Raise ValueError.

(** ** numpy primitives used by pad.py *)

(** pad == letter *)
Definition np_equal (a : list byte) (v : byte) : list bool :=
  (λ x, bool_decide (x = v)) <$> a.

Definition byte_le (x y : byte) : Prop := (byte_to_Z x ≤ byte_to_Z y)%Z.

#[global] Instance byte_le_dec : RelDecision byte_le :=
  λ x y, Z_le_dec (byte_to_Z x) (byte_to_Z y).

(** np.unique: the sorted distinct values *)
Definition np_unique (a : list byte) : list byte :=
  merge_sort byte_le (remove_dups a).

(** np.logical_and on one-dimensional arrays, with broadcasting of a
    length-one operand; other shape mismatches raise ValueError. *)
Definition logical_and (a b : list bool) : result (list bool) :=
  if decide (length a = length b) then Ok (zip_with andb a b)
  else if decide (length a = 1) then Ok (andb (default false (head a)) <$> b)
  else if decide (length b = 1) then Ok ((λ x, andb x (default false (head b))) <$> a)
  else Raise ValueError.

(** options.sum() *)
Definition np_sum (a : list bool) : nat :=
  sum_list_with (λ b : bool, if b then 1 else 0) a.

(** np.nonzero(options)[0]: the positions holding True, ascending *)
Fixpoint nonzero_from (i : nat) (a : list bool) : list nat :=
  match a with
  | [] => []
  | b :: a' => if b then i :: nonzero_from (S i) a' else nonzero_from (S i) a'
  end.

Definition np_nonzero (a : list bool) : list nat := nonzero_from 0 a.

(** statistics.min(): a zero-size array has no minimum *)
Definition np_min (a : list nat) : result nat :=
  match a with
  | [] => Raise ValueError
  | x :: a' => Ok (foldr Nat.min x a')
  end.

(** Resolution of one entry of an index array against an axis of
    length n: negative values count from the end. *)
Definition resolve_index (n : nat) (i : Z) : result nat :=
  let j := astype_intp i in
  if decide (0 ≤ j < Z.of_nat n)%Z then Ok (Z.to_nat j)
  else if decide (- Z.of_nat n ≤ j < 0)%Z then Ok (Z.to_nat (j + Z.of_nat n))
  else Raise IndexError.

(** a[index_array] *)
Definition np_take {A} (a : list A) (idx : list Z) : result (list A) :=
  result_map (λ i, do p <- resolve_index (length a) i ;
                   match a !! p with
                   | Some x => Ok x
                   | None => Raise IndexError
                   end) idx.

(** a[index_array] = v: every index is checked before anything is written *)
Definition np_put {A} (a : list A) (idx : list Z) (v : A) : result (list A) :=
  do ps <- result_map (resolve_index (length a)) idx ;
  Ok (foldl (λ acc p, <[p := v]> acc) a ps).

(** dict[key] *)
Definition dict_getitem `{Countable K} {V} (d : gmap K V) (k : K) : result V :=
  match d !! k with
  | Some v => Ok v
  | None => Raise KeyError
  end.

(** ** Cipher engine *)

(** What [encrypt] works on besides its immutable arguments: the
    [unused] array it was handed, which it mutates in place, and the
    entropy source. *)
Record store : Type := Store { st_unused : list bool; st_rng : rng }.

Definition get_unused : M store (list bool) := λ s, (Ok (st_unused s), s).

(** random.choice(seq): IndexError on an empty sequence, otherwise
    seq[randrange(len(seq))] *)
Definition random_choice (seq : list nat) : M store nat := λ s,
  match seq with
  | [] => (Raise IndexError, s)
  | x :: _ =>
      let '(v, r) := draw (st_rng s) in
      (Ok (nth (Z.to_nat (v mod Z.of_nat (length seq))) seq x),
       Store (st_unused s) r)
  end.

(** unused[pad_index] = value *)
Definition setitem_unused (pad_index : nat) (value : bool) : M store unit := λ s,
  if decide (pad_index < length (st_unused s))
  then (Ok (), Store (<[pad_index := value]> (st_unused s)) (st_rng s))
  else (Raise IndexError, s).

(** One turn of the loop of [encrypt]: the chosen pad index and the
    number of options recorded in the statistics. *)
Definition encrypt_symbol (pad : list byte) (lookup : gmap byte (list bool))
    (charecter : byte) : M store (nat * nat) :=
  do unused <~ get_unused ;
  do mask <~ lift (dict_getitem lookup charecter) ;
  do options <~ lift (logical_and unused mask) ;
  do pad_index <~ random_choice (np_nonzero options) ;
  do _ <~ setitem_unused pad_index false ;
  ret (pad_index, np_sum options).

Definition message_int (message : str) : list byte :=
  (λ i, astype_uint8 (ord i)) <$> message.

Definition make_lookup (pad : list byte) (message_int : list byte)
    : gmap byte (list bool) :=
  list_to_map ((λ letter, (letter, np_equal pad letter)) <$> np_unique message_int).

(** encrypt(message, pad, unused).  The argument [unused] is the array
    held by the state; the array returned next to [encrypted] is that
    same array after the call.  Of the print of the statistics the
    model keeps what can raise: statistics.min(), which has no value on
    an empty array (statistics.mean() is nan there, with a warning). *)
Definition encrypt (message : str) (pad : list byte) : M store (list Z) :=
  let message_int := message_int message in
  let lookup := make_lookup pad message_int in
  do rs <~ for_each (encrypt_symbol pad lookup) message_int ;
  do _ <~ lift (np_min (rs.*2)) ;
  ret ((λ i, astype_uint64 (Z.of_nat i)) <$> rs.*1).

(** decrypt(encrypted, pad) *)
Definition decrypt (encrypted : list Z) (pad : list byte) : result str :=
  do values <- np_take pad encrypted ;
  result_map (λ i, chr (byte_to_Z i)) values.

(** random.getrandbits(k): (1 << k) raises on a negative k before any
    entropy is read. *)
Definition getrandbits (k : Z) : M rng Z := λ r,
  if decide (k < 0)%Z then (Raise ValueError, r)
  else let '(v, r') := draw r in (Ok (Z.land (2 ^ k - 1) v), r').

(** random.long_to_bytes(n): big-endian, without leading zero bytes;
    zero is the single byte 0. *)
Definition byte_length (n : Z) : nat :=
  if decide (n ≤ 0)%Z then 1 else Z.to_nat (Z.log2 n / 8 + 1).

Definition long_to_bytes (n : Z) : list byte :=
  (λ k, byte_of_Z (n / 256 ^ Z.of_nat k)) <$> reverse (seq 0 (byte_length n)).

(** generate_pad(length) *)
Definition generate_pad (length : Z) : M rng (list byte * list bool) :=
  do bits <~ getrandbits (length * 8) ;
  let pad := long_to_bytes bits in
  let unused := replicate (List.length pad) true in
  ret (pad, unused).

(** ** Codec *)

(** array.tostring(): the raw bytes of the array, one byte per uint8 or
    bool entry, eight little-endian bytes per uint64 entry. *)
Definition le_bytes8 (v : Z) : list byte :=
  [ byte_of_Z v; byte_of_Z (v / 2 ^ 8); byte_of_Z (v / 2 ^ 16);
    byte_of_Z (v / 2 ^ 24); byte_of_Z (v / 2 ^ 32); byte_of_Z (v / 2 ^ 40);
    byte_of_Z (v / 2 ^ 48); byte_of_Z (v / 2 ^ 56) ].

Definition le_value (b : list byte) : Z :=
  foldr (λ x acc, byte_to_Z x + 256 * acc)%Z 0%Z b.

Definition tostring (dt : dtype) : ndarray dt → list byte :=
  match dt with
  | uint8 => λ a, a
  | bool_ => λ a, (λ b : bool, if b then x01 else x00) <$> a
  | uint64 => λ a, a ≫= le_bytes8
  end.

Fixpoint from_le_bytes8 (blob : list byte) : result (list Z) :=
  match blob with
  | [] => Ok []
  | b0 :: b1 :: b2 :: b3 :: b4 :: b5 :: b6 :: b7 :: rest =>
      do vs <- from_le_bytes8 rest ;
      Ok (le_value [b0; b1; b2; b3; b4; b5; b6; b7] :: vs)
  | _ => Raise ValueError
  end.

(** np.fromstring(blob, dtype=dtype): fails when the size of the blob
    is not a multiple of the element size. *)
Definition fromstring (dt : dtype) (blob : list byte) : result (ndarray dt) :=
  match dt with
  | uint8 => Ok blob
  | bool_ => Ok ((λ b, bool_decide (b ≠ x00)) <$> blob)
  | uint64 => from_le_bytes8 blob
  end.

(** base64 (RFC 4648, standard alphabet). *)
Definition b64_alphabet : list ascii :=
  list_ascii_of_string
    "ABCDEFGHIJKLMNOPQRSTUVWXYZabcdefghijklmnopqrstuvwxyz0123456789+/".

Definition b64_char (v : Z) : ascii := nth (Z.to_nat v) b64_alphabet "="%char.

Definition b64_value (c : ascii) : option Z :=
  (λ p, Z.of_nat p.1) <$> list_find (λ x, x = c) b64_alphabet.

Fixpoint b64_quanta (b : list byte) : list ascii :=
  match b with
  | [] => []
  | [x] =>
      let n := byte_to_Z x in
      [b64_char (n / 4); b64_char (n mod 4 * 16); "="%char; "="%char]
  | [x; y] =>
      let n := (byte_to_Z x * 256 + byte_to_Z y)%Z in
      [b64_char (n / 1024); b64_char (n / 16 mod 64); b64_char (n mod 16 * 4);
       "="%char]
  | x :: y :: z :: rest =>
      let n := (byte_to_Z x * 65536 + byte_to_Z y * 256 + byte_to_Z z)%Z in
      b64_char (n / 262144) :: b64_char (n / 4096 mod 64)
        :: b64_char (n / 64 mod 64) :: b64_char (n mod 64) :: b64_quanta rest
  end.

(** base64.b64encode(b).decode('utf-8') *)
Definition b64encode (b : list byte) : string :=
  string_of_list_ascii (b64_quanta b).

(** binascii.a2b_base64(data) in its default, non-strict mode, as
    base64.b64decode calls it.  [quad_pos] counts the sextets of the
    current quantum, [leftchar] holds the bits not yet written out and
    [pads] the padding characters seen since the last sextet.  A padding
    character counts only once two sextets of a quantum were read, and
    the padding that completes a quantum ends the decoding, whatever
    follows; a character outside the alphabet is skipped; input that
    ends inside a quantum raises binascii.Error. *)
Fixpoint a2b_base64 (data : list ascii) (quad_pos : nat) (leftchar : Z)
    (pads : nat) : result (list byte) :=
  match data with
  | [] => if decide (quad_pos = 0) then Ok [] else Raise BinasciiError
  | this_ch :: data' =>
      if decide (this_ch = "="%char) then
        if decide (2 ≤ quad_pos) then
          if decide (4 ≤ quad_pos + S pads) then Ok []
          else a2b_base64 data' quad_pos leftchar (S pads)
        else a2b_base64 data' quad_pos leftchar pads
      else
        match b64_value this_ch with
        | None => a2b_base64 data' quad_pos leftchar pads
        | Some v =>
            match quad_pos with
            | 0 => a2b_base64 data' 1 v 0
            | 1 =>
                do bs <- a2b_base64 data' 2 (Z.land v 15) 0 ;
                Ok (byte_of_Z (Z.lor (Z.shiftl leftchar 2) (Z.shiftr v 4)) :: bs)
            | 2 =>
                do bs <- a2b_base64 data' 3 (Z.land v 3) 0 ;
                Ok (byte_of_Z (Z.lor (Z.shiftl leftchar 4) (Z.shiftr v 2)) :: bs)
            | _ =>
                do bs <- a2b_base64 data' 0 0 0 ;
                Ok (byte_of_Z (Z.lor (Z.shiftl leftchar 6) v) :: bs)
            end
        end
  end.

Definition is_ascii (c : ascii) : bool := bool_decide (nat_of_ascii c < 128).

(** base64.b64decode(s) for a str [s]: the text is encoded to ASCII
    first, which raises ValueError on any other character, and then
    handed to binascii.a2b_base64. *)
Definition b64decode (s : string) : result (list byte) :=
  let data := list_ascii_of_string s in
  if forallb is_ascii data then a2b_base64 data 0 0 0 else Raise ValueError.

(** zlib and json are used through their interfaces only. *)
Class Libraries : Type := {
  zlib_compress : list byte → list byte;
  zlib_decompress : list byte → result (list byte);
  json_dumps : gmap string string → string;
  json_loads : string → result (gmap string string)
}.

(** What pad.py relies on: decompress inverts compress, loads inverts
    dumps. *)
Class LibrariesSpec (L : Libraries) : Prop := {
  zlib_round_trip : ∀ b, zlib_decompress (zlib_compress b) = Ok b;
  json_round_trip : ∀ d, json_loads (json_dumps d) = Ok d
}.

(** An implementation of the interface to run the definitions on:
    compression that stores its input behind a one-byte header, and a
    document format that writes the binary digits of the code stdpp
    assigns to the dictionary. *)
Definition stored_compress (b : list byte) : list byte := x78 :: b.

Definition stored_decompress (b : list byte) : result (list byte) :=
  match b with
  | x78 :: b' => Ok b'
  | _ => Raise ZlibError
  end.

Fixpoint digits_of_pos (p : positive) : string :=
  match p with
  | xH => EmptyString
  | xO p' => String "0"%char (digits_of_pos p')
  | xI p' => String "1"%char (digits_of_pos p')
  end.

Fixpoint pos_of_digits (s : string) : positive :=
  match s with
  | EmptyString => xH
  | String c s' =>
      if decide (c = "1"%char) then xI (pos_of_digits s') else xO (pos_of_digits s')
  end.

Definition digits_dumps (d : gmap string string) : string :=
  digits_of_pos (encode d).

Definition digits_loads (s : string) : result (gmap string string) :=
  match decode (pos_of_digits s) with
  | Some d => Ok d
  | None => Raise JSONDecodeError
  end.

Definition stored_libraries : Libraries :=
  {| zlib_compress := stored_compress;
     zlib_decompress := stored_decompress;
     json_dumps := digits_dumps;
     json_loads := digits_loads |}.

Section Codec.
Context `{L : Libraries}.

(** to_packed(array, compress) *)
Definition to_packed (dt : dtype) (array : ndarray dt) (compress : bool) : string :=
  if compress then b64encode (zlib_compress (tostring dt array))
  else b64encode (tostring dt array).

(** to_native(blob, dtype, decompress) *)
Definition to_native (blob : string) (dt : dtype) (decompress : bool)
    : result (ndarray dt) :=
  do blob <- b64decode blob ;
  do blob <- (if decompress then zlib_decompress blob else Ok blob) ;
  fromstring dt blob.

(** pack_pad(pad, unused) *)
Definition pack_pad (pad : list byte) (unused : list bool) : string :=
  let blob : gmap string string :=
    <["unused" := to_packed bool_ unused true]>
      (<["pad" := to_packed uint8 pad false]> ∅) in
  json_dumps blob.

(** unpack_pad(packed) *)
Definition unpack_pad (packed : string) : result (list byte * list bool) :=
  do packed <- json_loads packed ;
  do blob <- dict_getitem packed "pad" ;
  do pad <- to_native blob dtype_pad false ;
  do blob <- dict_getitem packed "unused" ;
  do unused <- to_native blob bool_ true ;
  Ok (pad, unused).
End Codec.

(** ** PadWriter

    A session is a PadWriter object (file_name, pad, unused) together
    with what it acts on: the files on disc and the entropy source. *)
Record session : Type := Session {
  self_file_name : string;
  self_pad : list byte;
  self_unused : list bool;
  files : gmap string string;
  entropy : rng
}.

(** A transaction against a session and what it answers. *)
Inductive transaction : Type :=
| Encrypt (message : str)
| Decrypt (encrypted : string).

Inductive reply : Type :=
| Ciphertext (encrypted : string)
| Plaintext (message : str)
| Failed (e : exn).

Section PadWriter.
Context `{L : Libraries}.

(** PadWriter._new_pad(length) *)
Definition _new_pad (length : option Z) : M rng (list byte * list bool) :=
  let length := match length with
                | None => default_pad_length
                | Some n => n
                end in
  generate_pad length.

(** PadWriter._load_pad(): reads self.file_name *)
Definition _load_pad (file_name : string) (fs : gmap string string)
    : result (list byte * list bool) :=
  do content <- dict_getitem fs file_name ;
  unpack_pad content.

(** PadWriter._write_pad() *)
Definition _write_pad : M session unit := λ w,
  (Ok (), Session (self_file_name w) (self_pad w) (self_unused w)
            (<[self_file_name w := pack_pad (self_pad w) (self_unused w)]> (files w))
            (entropy w)).

(** PadWriter(file_name, length) *)
Definition PadWriter (file_name : string) (length : option Z)
    (fs : gmap string string) (r : rng) : result session :=
  if decide (is_Some (fs !! file_name)) then
    do pu <- _load_pad file_name fs ;
    Ok (Session file_name pu.1 pu.2 fs r)
  else
    match _new_pad length r with
    | (Ok pu, r') =>
        match _write_pad (Session file_name pu.1 pu.2 fs r') with
        | (Ok _, w) => Ok w
        | (Raise e, _) => Raise e
        end
    | (Raise e, _) => Raise e
    end.

(** The call encrypt(message=message, pad=self.pad, unused=self.unused):
    self.unused is the very array encrypt mutates, so what encrypt did
    to it stays in the object also when encrypt raises. *)
Definition call_encrypt (message : str) : M session (list Z) := λ w,
  let '(r, st) := encrypt message (self_pad w)
                    (Store (self_unused w) (entropy w)) in
  (r, Session (self_file_name w) (self_pad w) (st_unused st) (files w) (st_rng st)).

(** PadWriter.encrypt_message(message) *)
Definition encrypt_message (message : str) : M session string :=
  do encrypted <~ call_encrypt message ;
  do _ <~ _write_pad ;
  ret (to_packed dtype_message encrypted true).

(** self.unused[encrypted_array] = False *)
Definition mark_used (encrypted_array : list Z) : M session unit := λ w,
  match np_put (self_unused w) encrypted_array false with
  | Ok unused' =>
      (Ok (), Session (self_file_name w) (self_pad w) unused' (files w) (entropy w))
  | Raise e => (Raise e, w)
  end.

(** PadWriter.decrypt_message(encrypted) *)
Definition decrypt_message (encrypted : string) : M session str :=
  do encrypted_array <~ lift (to_native encrypted dtype_message true) ;
  do decrypted <~ (λ w, (decrypt encrypted_array (self_pad w), w)) ;
  do _ <~ mark_used encrypted_array ;
  do _ <~ _write_pad ;
  ret decrypted.

Definition transact (t : transaction) (w : session) : reply * session :=
  match t with
  | Encrypt message =>
      match encrypt_message message w with
      | (Ok c, w') => (Ciphertext c, w')
      | (Raise e, w') => (Failed e, w')
      end
  | Decrypt encrypted =>
      match decrypt_message encrypted w with
      | (Ok m, w') => (Plaintext m, w')
      | (Raise e, w') => (Failed e, w')
      end
  end.

(** A sequence of transactions on one session. *)
Fixpoint run (ts : list transaction) (w : session) : list reply * session :=
  match ts with
  | [] => ([], w)
  | t :: ts' =>
      let '(r, w1) := transact t w in
      let '(rs, w2) := run ts' w1 in
      (r :: rs, w2)
  end.

(** The pad indices a sequence of transactions handed out: what the
    ciphertexts of its encrypt transactions decode to. *)
Definition ciphertext_indices (r : reply) : list Z :=
  match r with
  | Ciphertext encrypted =>
      match to_native encrypted dtype_message true with
      | Ok encrypted_array => encrypted_array
      | Raise _ => []
      end
  | _ => []
  end.

Definition returned_indices (replies : list reply) : list Z :=
  replies ≫= ciphertext_indices.
End PadWriter.

(** ** Vocabulary of the properties *)

(** The candidate set of a symbol: the unused pad positions that hold
    it; this is the array the loop of [encrypt] hands to random.choice. *)
Definition candidates (pad : list byte) (unused : list bool) (c : byte) : list nat :=
  np_nonzero (zip_with andb unused (np_equal pad c)).

Definition available (pad : list byte) (unused : list bool) (c : byte) : nat :=
  length (candidates pad unused c).

(** The mask after the positions [idxs] were marked as consumed. *)
Definition consume (idxs : list nat) (unused : list bool) : list bool :=
  foldl (λ acc p, <[p := false]> acc) unused idxs.

(** [selection pad unused m idxs]: [idxs] answers the symbols of [m] one
    by one, each index taken from the candidate set its symbol has once
    the earlier indices are consumed. *)
Inductive selection (pad : list byte) : list bool → list byte → list nat → Prop :=
| selection_nil unused : selection pad unused [] []
| selection_cons unused c m i idxs :
    i ∈ candidates pad unused c →
    selection pad (<[i := false]> unused) m idxs →
    selection pad unused (c :: m) (i :: idxs).

(** How often the symbol [c] occurs in [m]. *)
Definition occurrences (c : byte) (m : list byte) : nat :=
  length (filter (λ x, x = c) m).

(** The symbol at position [k] finds its candidate set empty when the
    message is processed in order, one matching index consumed per
    symbol: the earlier occurrences of the symbol used up every unused
    position that holds it. *)
Definition starved (pad : list byte) (unused : list bool) (m : list byte) (k : nat)
    : Prop :=
  ∃ c, m !! k = Some c ∧ available pad unused c ≤ occurrences c (take k m).

(** The first [k] turns of the loop of [encrypt]. *)
Definition loop_prefix (message : str) (pad : list byte) (k : nat)
    : M store (list (nat * nat)) :=
  for_each (encrypt_symbol pad (make_lookup pad (message_int message)))
    (take k (message_int message)).

(** A pad store: pad and usage mask are index-aligned, and the pad is
    an array numpy can hold (array sizes are of type intp). *)
Definition pad_store (pad : list byte) (unused : list bool) : Prop :=
  length unused = length pad ∧ (Z.of_nat (length pad) ≤ 2 ^ 63)%Z.

(** The indices a transaction hands out were unused before it and are
    consumed after it. *)
Definition handed_out (w w' : session) (es : list Z) : Prop :=
  NoDup es ∧
  ∀ e, e ∈ es → ∃ p, e = Z.of_nat p ∧
    self_unused w !! p = Some true ∧ self_unused w' !! p = Some false.

(** ** Sample data: the pad A B A C, all unused *)

Definition sample_pad : list byte := [x41; x42; x41; x43].

Definition sample_unused : list bool := [true; true; true; true].

Definition sample_rng : rng := Rng (λ _, 0%N) 0.

Definition sample_session : session :=
  Session "pad_data.json" sample_pad sample_unused ∅ sample_rng.

(** The ciphertext of the indices 0 and 1 under the stand-in libraries. *)
Definition sample_ciphertext : string := "eAAAAAAAAAAAAQAAAAAAAAA=".

Definition sample_run1 : list reply * session :=
  run (L := stored_libraries)
    [Encrypt [65; 66]%N; Decrypt sample_ciphertext] sample_session.

Definition sample_run2 : list reply * session :=
  run (L := stored_libraries) [Encrypt [65]%N; Encrypt [65]%N] sample_run1.2.

(** * Properties *)

(** Proof steps used throughout: the two word sizes as numerals, and
    linear arithmetic after the elimination of division and modulo. *)
Ltac word_bounds :=
  change (2 ^ 64)%Z with 18446744073709551616%Z in *;
  change (2 ^ 63)%Z with 9223372036854775808%Z in *.

Ltac div_mod_lia := Z.div_mod_to_equations; lia.

(** ** Bytes *)

Lemma byte_to_Z_range b : (0 ≤ byte_to_Z b < 256)%Z.
Proof.
  unfold byte_to_Z. pose proof (Byte.to_N_bounded b). lia.
Qed.

Lemma byte_of_to_Z b : byte_of_Z (byte_to_Z b) = b.
Proof.
  unfold byte_of_Z. pose proof (byte_to_Z_range b) as Hb.
  rewrite Z.mod_small by done. unfold byte_to_Z.
  by rewrite N2Z.id, Byte.of_to_N.
Qed.

Lemma byte_to_of_Z z : byte_to_Z (byte_of_Z z) = (z mod 256)%Z.
Proof.
  unfold byte_of_Z, byte_to_Z.
  pose proof (Z.mod_pos_bound z 256 eq_refl) as Hz.
  destruct (Byte.of_N (Z.to_N (z mod 256))) as [b|] eqn:Hb.
  - apply Byte.to_of_N in Hb. rewrite Hb. lia.
  - apply Byte.of_N_None_iff in Hb. lia.
Qed.

Lemma byte_of_Z_mod z : byte_of_Z (z mod 256) = byte_of_Z z.
Proof. unfold byte_of_Z. by rewrite Z.mod_mod. Qed.

Lemma byte_to_Z_inj b1 b2 : byte_to_Z b1 = byte_to_Z b2 → b1 = b2.
Proof.
  intros H. rewrite <- (byte_of_to_Z b1), <- (byte_of_to_Z b2). by rewrite H.
Qed.

(** ** The monad *)

Lemma bind_Ok {S A B} (m : M S A) (k : A → M S B) s b s' :
  bind m k s = (Ok b, s') ↔ ∃ a s1, m s = (Ok a, s1) ∧ k a s1 = (Ok b, s').
Proof.
  unfold bind. destruct (m s) as [[a|e] s1]; split.
  - intros H. by exists a, s1.
  - by intros (a' & s1' & [= -> ->] & H).
  - done.
  - by intros (a' & s1' & ? & H).
Qed.

Lemma bind_Raise {S A B} (m : M S A) (k : A → M S B) s e s' :
  bind m k s = (Raise e, s') ↔
  m s = (Raise e, s') ∨ ∃ a s1, m s = (Ok a, s1) ∧ k a s1 = (Raise e, s').
Proof.
  unfold bind. destruct (m s) as [[a|e'] s1]; split.
  - intros H. right. by exists a, s1.
  - by intros [?|(a' & s1' & [= -> ->] & H)].
  - intros [= -> ->]. by left.
  - by intros [[= -> ->]|(a' & s1' & ? & H)].
Qed.

Lemma for_each_app {S A B} (f : A → M S B) l1 l2 s :
  for_each f (l1 ++ l2) s =
  match for_each f l1 s with
  | (Ok ys1, s1) =>
      match for_each f l2 s1 with
      | (Ok ys2, s2) => (Ok (ys1 ++ ys2), s2)
      | (Raise e, s2) => (Raise e, s2)
      end
  | (Raise e, s1) => (Raise e, s1)
  end.
Proof.
  revert s. induction l1 as [|x l1 IH]; intros s; simpl.
  - unfold ret. by destruct (for_each f l2 s) as [[ys|e] s2].
  - unfold bind. destruct (f x s) as [[y|e] s1]; [|done].
    rewrite IH. destruct (for_each f l1 s1) as [[ys1|e] s2]; [|done].
    unfold ret. by destruct (for_each f l2 s2) as [[ys2|e] s3].
Qed.

(** ** Boolean arrays *)

Lemma elem_of_nonzero_from i (a : list bool) j :
  j ∈ nonzero_from i a ↔ ∃ k, j = i + k ∧ a !! k = Some true.
Proof.
  revert i. induction a as [|b a IH]; intros i; simpl.
  - split; [by intros ?%elem_of_nil|by intros (k & _ & ?)].
  - assert (j ∈ nonzero_from (S i) a ↔ ∃ k, j = i + S k ∧ a !! k = Some true) as IH'.
    { rewrite IH. by setoid_rewrite Nat.add_succ_r. }
    destruct b.
    + rewrite elem_of_cons, IH'. split.
      * intros [->|(k & -> & Hk)]; [exists 0|exists (S k)]; split; auto with lia.
      * intros ([|k] & -> & Hk); [left; lia|right; by exists k].
    + rewrite IH'. split.
      * intros (k & -> & Hk). by exists (S k).
      * intros ([|k] & -> & Hk); [done|by exists k].
Qed.

Lemma elem_of_np_nonzero (a : list bool) j : j ∈ np_nonzero a ↔ a !! j = Some true.
Proof.
  unfold np_nonzero. rewrite elem_of_nonzero_from. split.
  - by intros (k & -> & Hk).
  - intros Hj. by exists j.
Qed.

Lemma NoDup_nonzero_from i (a : list bool) : NoDup (nonzero_from i a).
Proof.
  revert i. induction a as [|b a IH]; intros i; simpl; [constructor|].
  destruct b; [|done]. constructor; [|done].
  rewrite elem_of_nonzero_from. intros (k & Hk & _). lia.
Qed.

Lemma length_nonzero_from i (a : list bool) : length (nonzero_from i a) = np_sum a.
Proof.
  revert i. induction a as [|b a IH]; intros i; simpl; [done|].
  destruct b; simpl; by rewrite IH.
Qed.

Lemma np_sum_app (a b : list bool) : np_sum (a ++ b) = np_sum a + np_sum b.
Proof. apply sum_list_with_app. Qed.

Lemma np_sum_insert_true (a : list bool) i :
  a !! i = Some true → S (np_sum (<[i := false]> a)) = np_sum a.
Proof.
  intros Hi. pose proof (lookup_lt_Some _ _ _ Hi) as Hlt.
  rewrite insert_take_drop by done.
  rewrite <- (take_drop_middle a i true) at 3 by done.
  rewrite !np_sum_app. simpl. lia.
Qed.

Lemma lookup_zip_andb (a b : list bool) i :
  zip_with andb a b !! i = Some true ↔ a !! i = Some true ∧ b !! i = Some true.
Proof.
  rewrite lookup_zip_with_Some. split.
  - intros (x & y & Hxy & ? & ?). symmetry in Hxy. apply andb_true_iff in Hxy as [-> ->]. done.
  - intros [? ?]. by exists true, true.
Qed.

Lemma lookup_np_equal (pad : list byte) c i :
  np_equal pad c !! i = Some true ↔ pad !! i = Some c.
Proof.
  unfold np_equal. rewrite list_lookup_fmap. destruct (pad !! i) as [x|]; simpl; [|done].
  split.
  - intros [= H%bool_decide_eq_true]. by subst.
  - intros [= ->]. by rewrite bool_decide_eq_true_2.
Qed.

Lemma elem_of_candidates pad unused c i :
  i ∈ candidates pad unused c ↔ unused !! i = Some true ∧ pad !! i = Some c.
Proof.
  unfold candidates. by rewrite elem_of_np_nonzero, lookup_zip_andb, lookup_np_equal.
Qed.

Lemma NoDup_candidates pad unused c : NoDup (candidates pad unused c).
Proof. apply NoDup_nonzero_from. Qed.

Lemma available_sum pad unused c :
  available pad unused c = np_sum (zip_with andb unused (np_equal pad c)).
Proof. apply length_nonzero_from. Qed.

Lemma zip_andb_insert_false (a b : list bool) i :
  zip_with andb (<[i := false]> a) b = <[i := false]> (zip_with andb a b).
Proof.
  apply list_eq. intros j. destruct (decide (i = j)) as [->|Hne].
  - destruct (decide (j < length (zip_with andb a b))) as [Hlt|Hge].
    + rewrite list_lookup_insert_eq by done.
      rewrite length_zip_with in Hlt.
      rewrite lookup_zip_with. rewrite list_lookup_insert_eq by lia. simpl.
      destruct (lookup_lt_is_Some_2 b j) as [y ->]; [lia|]. done.
    + rewrite (list_insert_ge (zip_with _ _ _)) by lia.
      rewrite length_zip_with in Hge.
      rewrite !lookup_zip_with.
      destruct (decide (j < length a)).
      * rewrite list_lookup_insert_eq by done. simpl.
        rewrite (lookup_ge_None_2 b) by lia. by destruct (a !! j).
      * by rewrite list_insert_ge by lia.
  - rewrite list_lookup_insert_ne by done.
    by rewrite !lookup_zip_with, list_lookup_insert_ne.
Qed.

Lemma available_consumed pad unused c i :
  i ∈ candidates pad unused c →
  S (available pad (<[i := false]> unused) c) = available pad unused c.
Proof.
  intros Hi. rewrite !available_sum, zip_andb_insert_false.
  apply np_sum_insert_true. by apply elem_of_np_nonzero.
Qed.

Lemma available_other pad unused c c' i :
  i ∈ candidates pad unused c → c' ≠ c →
  available pad (<[i := false]> unused) c' = available pad unused c'.
Proof.
  intros [Hu Hp]%elem_of_candidates Hne.
  rewrite !available_sum, zip_andb_insert_false. f_equal.
  apply list_insert_id.
  pose proof (lookup_lt_Some _ _ _ Hu) as Hlu. pose proof (lookup_lt_Some _ _ _ Hp) as Hlp.
  rewrite lookup_zip_with, Hu. simpl. unfold np_equal. rewrite list_lookup_fmap, Hp. simpl.
  rewrite bool_decide_eq_false_2; [done|]. congruence.
Qed.

(** ** The lookup table *)

Lemma elem_of_np_unique (a : list byte) c : c ∈ np_unique a ↔ c ∈ a.
Proof.
  unfold np_unique. rewrite merge_sort_Permutation. apply elem_of_remove_dups.
Qed.

Lemma NoDup_np_unique (a : list byte) : NoDup (np_unique a).
Proof.
  unfold np_unique. rewrite merge_sort_Permutation. apply NoDup_remove_dups.
Qed.

Lemma make_lookup_Some pad m c :
  c ∈ m → make_lookup pad m !! c = Some (np_equal pad c).
Proof.
  intros Hc. unfold make_lookup. apply elem_of_list_to_map_1.
  - rewrite <- list_fmap_compose. simpl.
    rewrite (list_fmap_ext _ id (np_unique m)) by done.
    rewrite list_fmap_id. apply NoDup_np_unique.
  - apply list_elem_of_fmap. exists c. split; [done|]. by apply elem_of_np_unique.
Qed.

(** ** One turn of the loop *)

Lemma logical_and_aligned (a b : list bool) :
  length a = length b → logical_and a b = Ok (zip_with andb a b).
Proof. intros H. unfold logical_and. by rewrite decide_True. Qed.

Lemma random_choice_elem seq s :
  seq ≠ [] →
  ∃ i, i ∈ seq ∧ random_choice seq s = (Ok i, Store (st_unused s) (draw (st_rng s)).2).
Proof.
  intros Hne. unfold random_choice. destruct seq as [|x seq']; [done|].
  destruct (draw (st_rng s)) as [v r] eqn:Hd. cbv beta iota. cbn [snd].
  eexists. split; [|done].
  apply list_elem_of_In, nth_In.
  assert (0 ≤ v mod Z.of_nat (length (x :: seq')) < Z.of_nat (length (x :: seq')))%Z.
  { apply Z.mod_pos_bound. simpl. lia. }
  lia.
Qed.

Lemma encrypt_symbol_spec pad lookup c s :
  length (st_unused s) = length pad →
  lookup !! c = Some (np_equal pad c) →
  (candidates pad (st_unused s) c = [] ∧
   encrypt_symbol pad lookup c s = (Raise IndexError, s)) ∨
  (∃ i, i ∈ candidates pad (st_unused s) c ∧
     encrypt_symbol pad lookup c s =
       (Ok (i, available pad (st_unused s) c),
        Store (<[i := false]> (st_unused s)) (draw (st_rng s)).2)).
Proof.
  intros Hlen Hlk. unfold encrypt_symbol, bind, get_unused, lift, dict_getitem.
  rewrite Hlk. rewrite logical_and_aligned
    by (unfold np_equal; by rewrite length_fmap).
  fold (candidates pad (st_unused s) c).
  destruct (candidates pad (st_unused s) c) as [|x cs] eqn:Hc.
  - left. done.
  - right. destruct (random_choice_elem (x :: cs) s) as (i & Hi & ->); [done|].
    exists i. split; [done|].
    unfold setitem_unused. simpl.
    rewrite <- Hc in Hi. apply elem_of_candidates in Hi as [Hu _].
    rewrite decide_True by (by eapply lookup_lt_Some).
    unfold ret. do 2 f_equal. rewrite available_sum. done.
Qed.

(** ** Consumption *)

Lemma consume_cons i idxs unused :
  consume (i :: idxs) unused = consume idxs (<[i := false]> unused).
Proof. done. Qed.

Lemma consume_app idxs1 idxs2 unused :
  consume (idxs1 ++ idxs2) unused = consume idxs2 (consume idxs1 unused).
Proof. apply foldl_app. Qed.

Lemma length_consume idxs unused : length (consume idxs unused) = length unused.
Proof.
  revert unused. induction idxs as [|i idxs IH]; intros unused; [done|].
  by rewrite consume_cons, IH, length_insert.
Qed.

Lemma consume_false idxs unused j :
  unused !! j = Some false → consume idxs unused !! j = Some false.
Proof.
  revert unused. induction idxs as [|i idxs IH]; intros unused Hj; [done|].
  rewrite consume_cons. apply IH.
  destruct (decide (i = j)) as [->|Hne].
  - apply list_lookup_insert_eq. by eapply lookup_lt_Some.
  - by rewrite list_lookup_insert_ne.
Qed.

Lemma consume_elem idxs unused j :
  j ∈ idxs → j < length unused → consume idxs unused !! j = Some false.
Proof.
  revert unused. induction idxs as [|i idxs IH]; intros unused Hj Hlt.
  - by apply elem_of_nil in Hj.
  - rewrite consume_cons. apply elem_of_cons in Hj as [->|Hj].
    + apply consume_false. by apply list_lookup_insert_eq.
    + apply IH; [done|]. by rewrite length_insert.
Qed.

Lemma consume_other idxs unused j :
  j ∉ idxs → consume idxs unused !! j = unused !! j.
Proof.
  revert unused. induction idxs as [|i idxs IH]; intros unused Hj; [done|].
  apply not_elem_of_cons in Hj as [Hne Hj].
  rewrite consume_cons, IH by done. by apply list_lookup_insert_ne.
Qed.

(** ** Selections *)

Lemma selection_length pad unused m idxs :
  selection pad unused m idxs → length idxs = length m.
Proof. induction 1; simpl; congruence. Qed.

Lemma selection_app_inv pad unused m1 m2 idxs :
  selection pad unused (m1 ++ m2) idxs →
  selection pad unused m1 (take (length m1) idxs) ∧
  selection pad (consume (take (length m1) idxs) unused) m2 (drop (length m1) idxs).
Proof.
  revert unused idxs. induction m1 as [|c m1 IH]; intros unused idxs Hs; simpl in *.
  - rewrite take_0, drop_0. split; [constructor|done].
  - inversion Hs as [|? ? ? i idxs' Hi Hs']; subst. cbn [firstn skipn].
    destruct (IH _ _ Hs') as [H1 H2]. split; [by constructor|].
    by rewrite consume_cons.
Qed.

Lemma selection_app pad unused m1 m2 idxs1 idxs2 :
  selection pad unused m1 idxs1 →
  selection pad (consume idxs1 unused) m2 idxs2 →
  selection pad unused (m1 ++ m2) (idxs1 ++ idxs2).
Proof.
  induction 1 as [|unused c m i idxs Hi Hs IH]; intros H2; simpl; [done|].
  constructor; [done|]. apply IH. by rewrite consume_cons in H2.
Qed.

Lemma selection_take pad unused m idxs k :
  selection pad unused m idxs → selection pad unused (take k m) (take k idxs).
Proof.
  intros Hs. destruct (decide (k ≤ length m)) as [Hk|Hk].
  - rewrite <- (take_drop k m) in Hs. apply selection_app_inv in Hs as [Hs _].
    by rewrite length_take, Nat.min_l in Hs by done.
  - pose proof (selection_length _ _ _ _ Hs).
    by rewrite !take_ge by lia.
Qed.

(** Every index of a selection points at its symbol. *)
Lemma selection_lookup pad unused m idxs k i :
  selection pad unused m idxs → idxs !! k = Some i → pad !! i = m !! k.
Proof.
  intros Hs. revert k. induction Hs as [|unused c m j idxs Hj Hs IH]; intros k Hk.
  - done.
  - destruct k as [|k]; simpl in *; [|by apply IH].
    injection Hk as ->. by apply elem_of_candidates in Hj as [_ ->].
Qed.

(** Every index of a selection was unused in the mask its turn found. *)
Lemma selection_fresh pad unused m idxs k i :
  selection pad unused m idxs → idxs !! k = Some i →
  consume (take k idxs) unused !! i = Some true.
Proof.
  intros Hs. revert k. induction Hs as [|unused c m j idxs Hj Hs IH]; intros k Hk.
  - done.
  - destruct k as [|k]; simpl in Hk; cbn [firstn].
    + injection Hk as ->. apply elem_of_candidates in Hj as [Hj _]. exact Hj.
    + rewrite consume_cons. by apply IH.
Qed.

Lemma selection_unused pad unused m idxs i :
  selection pad unused m idxs → i ∈ idxs → unused !! i = Some true.
Proof.
  induction 1 as [|unused c m j idxs Hj Hs IH]; intros Hi.
  - by apply elem_of_nil in Hi.
  - apply elem_of_cons in Hi as [->|Hi].
    + by apply elem_of_candidates in Hj as [-> _].
    + specialize (IH Hi). destruct (decide (j = i)) as [->|Hne].
      * rewrite list_lookup_insert_eq in IH; [done|].
        apply elem_of_candidates in Hj as [Hj _]. by eapply lookup_lt_Some.
      * by rewrite list_lookup_insert_ne in IH.
Qed.

Lemma selection_NoDup pad unused m idxs :
  selection pad unused m idxs → NoDup idxs.
Proof.
  induction 1 as [|unused c m j idxs Hj Hs IH]; constructor; [|done].
  intros Hin. pose proof (selection_unused _ _ _ _ _ Hs Hin) as Ht.
  rewrite list_lookup_insert_eq in Ht; [done|].
  apply elem_of_candidates in Hj as [Hj _]. by eapply lookup_lt_Some.
Qed.

Lemma selection_lt pad unused m idxs i :
  selection pad unused m idxs → i ∈ idxs → i < length pad.
Proof.
  intros Hs [k Hk]%list_elem_of_lookup.
  pose proof (selection_lookup _ _ _ _ _ _ Hs Hk) as Hp.
  pose proof (selection_length _ _ _ _ Hs) as Hl.
  apply lookup_lt_Some in Hk.
  destruct (lookup_lt_is_Some_2 m k) as [c Hc]; [lia|].
  rewrite Hc in Hp. by eapply lookup_lt_Some.
Qed.

(** ** Counting candidates *)

Lemma occurrences_cons c x m :
  occurrences c (x :: m) = (if decide (x = c) then 1 else 0) + occurrences c m.
Proof.
  unfold occurrences. rewrite filter_cons. by destruct (decide (x = c)).
Qed.

Lemma selection_available pad unused m idxs c :
  selection pad unused m idxs →
  available pad unused c = available pad (consume idxs unused) c + occurrences c m.
Proof.
  induction 1 as [|unused x m i idxs Hi Hs IH]; [unfold occurrences; simpl; lia|].
  rewrite consume_cons, occurrences_cons.
  destruct (decide (x = c)) as [->|Hne].
  - rewrite <- (available_consumed pad unused c i) by done. lia.
  - rewrite <- (available_other pad unused x c i) by done. lia.
Qed.

Lemma available_0 pad unused c :
  available pad unused c = 0 ↔ candidates pad unused c = [].
Proof. unfold available. split; [apply length_zero_iff_nil|by intros ->]. Qed.

Lemma selection_not_starved pad unused m idxs j :
  selection pad unused m idxs → ¬ starved pad unused m j.
Proof.
  intros Hs (c & Hc & Hle).
  pose proof (lookup_lt_Some _ _ _ Hc) as Hj.
  pose proof (selection_take _ _ _ _ (S j) Hs) as Hs'.
  rewrite (take_S_r _ _ _ Hc) in Hs'.
  apply selection_app_inv in Hs' as [H1 H2].
  rewrite (selection_available _ _ _ _ c H1) in Hle.
  inversion H2 as [|? ? ? i idxs' Hi _ Heq]; subst.
  assert (available pad (consume (take (length (take j m))
            (take (S j) idxs)) unused) c ≠ 0) as Hne.
  { rewrite available_0. intros E. rewrite E in Hi. by apply elem_of_nil in Hi. }
  lia.
Qed.

Lemma selection_starved pad unused m idxs c :
  selection pad unused m idxs →
  candidates pad (consume idxs unused) c = [] →
  starved pad unused (m ++ [c]) (length m).
Proof.
  intros Hs Hc. exists c. split.
  - by rewrite lookup_app_r, Nat.sub_diag.
  - rewrite take_app_length, (selection_available _ _ _ _ c Hs).
    apply available_0 in Hc. lia.
Qed.

Lemma starved_prefix pad unused m1 m2 k :
  k < length m1 →
  starved pad unused (m1 ++ m2) k ↔ starved pad unused m1 k.
Proof.
  intros Hk. unfold starved.
  by setoid_rewrite lookup_app_l; [setoid_rewrite take_app_le; [|lia]|].
Qed.

(** ** The loop of encrypt *)

(** Either every turn finds a candidate and the loop returns a
    selection, or some turn [k] finds none: the loop raises IndexError
    there, with the state the first [k] turns left. *)
Lemma encrypt_loop_spec pad lookup m s :
  length (st_unused s) = length pad →
  (∀ c, c ∈ m → lookup !! c = Some (np_equal pad c)) →
  (∃ rs s', for_each (encrypt_symbol pad lookup) m s = (Ok rs, s') ∧
     selection pad (st_unused s) m rs.*1 ∧
     st_unused s' = consume rs.*1 (st_unused s)) ∨
  (∃ k c rs s', m !! k = Some c ∧
     for_each (encrypt_symbol pad lookup) (take k m) s = (Ok rs, s') ∧
     selection pad (st_unused s) (take k m) rs.*1 ∧
     st_unused s' = consume rs.*1 (st_unused s) ∧
     candidates pad (st_unused s') c = [] ∧
     for_each (encrypt_symbol pad lookup) m s = (Raise IndexError, s')).
Proof.
  revert s. induction m as [|c m IH]; intros s Hlen Hlk.
  { left. exists [], s. repeat split. constructor. }
  destruct (encrypt_symbol_spec pad lookup c s Hlen) as [[Hc Hf]|(i & Hi & Hf)].
  { apply Hlk. by left. }
  - right. exists 0, c, [], s. repeat split; [constructor|done|].
    simpl. unfold bind. by rewrite Hf.
  - set (s1 := Store (<[i:=false]> (st_unused s)) (draw (st_rng s)).2) in *.
    destruct (IH s1) as [(rs & s' & Hrun & Hsel & Hst)|
                         (k & c' & rs & s' & Hk & Hrun & Hsel & Hst & Hc' & Hall)].
    { simpl. by rewrite length_insert. }
    { intros c' Hc'. apply Hlk. by right. }
    + left. exists ((i, available pad (st_unused s) c) :: rs), s'.
      split; [|split].
      * simpl. unfold bind. rewrite Hf, Hrun. done.
      * simpl. by constructor.
      * done.
    + right. exists (S k), c', ((i, available pad (st_unused s) c) :: rs), s'.
      split; [done|]. split; [|split; [|split; [|split]]].
      * simpl. unfold bind. rewrite Hf, Hrun. done.
      * simpl. by constructor.
      * done.
      * done.
      * simpl. unfold bind. rewrite Hf, Hall. done.
Qed.

Lemma encrypt_unfold message pad s :
  encrypt message pad s =
  match for_each (encrypt_symbol pad (make_lookup pad (message_int message)))
          (message_int message) s with
  | (Ok [], s') => (Raise ValueError, s')
  | (Ok rs, s') => (Ok ((λ i, astype_uint64 (Z.of_nat i)) <$> rs.*1), s')
  | (Raise e, s') => (Raise e, s')
  end.
Proof.
  unfold encrypt, bind.
  destruct (for_each _ _ s) as [[[|x rs]|e] s']; done.
Qed.

Lemma loop_prefix_all message pad :
  loop_prefix message pad (length message) =
  for_each (encrypt_symbol pad (make_lookup pad (message_int message)))
    (message_int message).
Proof.
  unfold loop_prefix. rewrite take_ge; [done|].
  unfold message_int. by rewrite length_fmap.
Qed.

(** The loop on a pad store, in the vocabulary of the properties. *)
Lemma encrypt_loop_cases message pad unused r :
  length unused = length pad →
  let m := message_int message in
  (∃ rs s', loop_prefix message pad (length m) (Store unused r) = (Ok rs, s') ∧
     selection pad unused m rs.*1 ∧ st_unused s' = consume rs.*1 unused) ∨
  (∃ k c rs s', m !! k = Some c ∧
     loop_prefix message pad k (Store unused r) = (Ok rs, s') ∧
     selection pad unused (take k m) rs.*1 ∧
     st_unused s' = consume rs.*1 unused ∧
     candidates pad (st_unused s') c = [] ∧
     loop_prefix message pad (length m) (Store unused r) = (Raise IndexError, s')).
Proof.
  intros Hlen m. unfold loop_prefix. fold m. rewrite firstn_all.
  apply (encrypt_loop_spec pad _ m (Store unused r) Hlen).
  intros c Hc. by apply make_lookup_Some.
Qed.

(** ** Index casts *)

Lemma astype_uint64_small i :
  (Z.of_nat i < 2 ^ 64)%Z → astype_uint64 (Z.of_nat i) = Z.of_nat i.
Proof. intros H. unfold astype_uint64. apply Z.mod_small. lia. Qed.

Lemma astype_intp_small x : (0 ≤ x < 2 ^ 63)%Z → astype_intp x = x.
Proof.
  intros Hx. unfold astype_intp. word_bounds.
  rewrite Z.mod_small by lia. by rewrite decide_True by lia.
Qed.

Lemma resolve_index_small n i :
  i < n → (Z.of_nat n ≤ 2 ^ 63)%Z → resolve_index n (Z.of_nat i) = Ok i.
Proof.
  intros Hi Hn. unfold resolve_index.
  rewrite astype_intp_small by lia.
  rewrite decide_True by lia. by rewrite Nat2Z.id.
Qed.

Lemma result_map_Forall2 {A B} (f : A → result B) l l' :
  result_map f l = Ok l' ↔ Forall2 (λ x y, f x = Ok y) l l'.
Proof.
  revert l'. induction l as [|x l IH]; intros l'; simpl.
  - split; [intros [= <-]; constructor|by intros ->%Forall2_nil_inv_l].
  - unfold result_bind. split.
    + destruct (f x) as [y|] eqn:Hx; [|done].
      destruct (result_map f l) as [ys|] eqn:Hl; [|done].
      intros [= <-]. constructor; [done|]. by apply IH.
    + intros (y & ys & Hx & Hl & ->)%Forall2_cons_inv_l.
      apply IH in Hl. by rewrite Hx, Hl.
Qed.

Lemma for_each_length {St A B} (f : A → M St B) l s rs s' :
  for_each f l s = (Ok rs, s') → length rs = length l.
Proof.
  revert s rs. induction l as [|x l IH]; intros s rs; simpl.
  - unfold ret. by intros [= <- <-].
  - unfold bind, ret. destruct (f x s) as [[y|] s1]; [|done].
    destruct (for_each f l s1) as [[ys|] s2] eqn:Hl; [|done].
    intros [= <- <-]. simpl. f_equal. by eapply IH.
Qed.

Lemma for_each_app_Ok {St A B} (f : A → M St B) l1 l2 s rs s' :
  for_each f (l1 ++ l2) s = (Ok rs, s') →
  ∃ rs1 s1 rs2, for_each f l1 s = (Ok rs1, s1) ∧
    for_each f l2 s1 = (Ok rs2, s') ∧ rs = rs1 ++ rs2.
Proof.
  rewrite for_each_app.
  destruct (for_each f l1 s) as [[rs1|] s1]; [|done].
  destruct (for_each f l2 s1) as [[rs2|] s2] eqn:H2; [|done].
  intros [= <- <-]. by exists rs1, s1, rs2.
Qed.

Lemma for_each_take_Ok {St A B} (f : A → M St B) l s rs s' i :
  for_each f l s = (Ok rs, s') →
  ∃ s1, for_each f (take i l) s = (Ok (take i rs), s1).
Proof.
  intros Hrun. rewrite <- (take_drop i l) in Hrun.
  apply for_each_app_Ok in Hrun as (rs1 & s1 & rs2 & Hrun1 & Hrun2 & ->).
  exists s1. rewrite Hrun1. do 2 f_equal.
  apply for_each_length in Hrun1. apply for_each_length in Hrun2.
  rewrite length_take in Hrun1. rewrite length_drop in Hrun2.
  destruct (decide (i ≤ length l)).
  - rewrite take_app_length'; [done|]. lia.
  - rewrite take_ge; [|rewrite length_app; lia].
    assert (rs2 = []) as -> by (apply length_zero_iff_nil; lia).
    by rewrite app_nil_r.
Qed.

Lemma encrypt_loop_Ok pad lookup m s rs s' :
  length (st_unused s) = length pad →
  (∀ c, c ∈ m → lookup !! c = Some (np_equal pad c)) →
  for_each (encrypt_symbol pad lookup) m s = (Ok rs, s') →
  selection pad (st_unused s) m rs.*1 ∧ st_unused s' = consume rs.*1 (st_unused s).
Proof.
  intros Hlen Hlk Hrun.
  destruct (encrypt_loop_spec pad lookup m s Hlen Hlk)
    as [(rs0 & s0 & Hrun0 & Hsel & Hst)|(k & c & rs0 & s0 & _ & _ & _ & _ & _ & Hf)].
  - rewrite Hrun in Hrun0. by injection Hrun0 as <- <-.
  - by rewrite Hrun in Hf.
Qed.

Lemma selection_Forall2 pad unused m idxs :
  selection pad unused m idxs → Forall2 (λ p c, pad !! p = Some c) idxs m.
Proof.
  induction 1 as [|unused c m i idxs Hi Hs IH]; constructor; [|done].
  by apply elem_of_candidates in Hi as [_ ?].
Qed.

Lemma length_message_int message : length (message_int message) = length message.
Proof. unfold message_int. apply length_fmap. Qed.

(** What a successful call of encrypt returns. *)
Lemma encrypt_Ok message pad unused r encrypted s' :
  pad_store pad unused →
  encrypt message pad (Store unused r) = (Ok encrypted, s') →
  ∃ rs, loop_prefix message pad (length message) (Store unused r) = (Ok rs, s') ∧
    selection pad unused (message_int message) rs.*1 ∧
    st_unused s' = consume rs.*1 unused ∧
    encrypted = Z.of_nat <$> rs.*1 ∧ message ≠ [].
Proof.
  intros [Hlen Hsz]. rewrite encrypt_unfold, loop_prefix_all.
  destruct (for_each _ _ _) as [[rs|e] s1] eqn:Hrun; [|done].
  apply encrypt_loop_Ok in Hrun as Hsel; [|done|by intros; apply make_lookup_Some].
  destruct Hsel as [Hsel Hst]. simpl in Hsel, Hst.
  assert ((λ i, astype_uint64 (Z.of_nat i)) <$> rs.*1 = Z.of_nat <$> rs.*1) as Hcast.
  { apply list_fmap_ext. intros k p Hp.
    apply astype_uint64_small.
    assert (p < length pad)
      by (eapply selection_lt; [done|by eapply list_elem_of_lookup_2]).
    word_bounds. lia. }
  destruct rs as [|x rs]; [done|]. intros [= <- <-].
  exists (x :: rs). split_and!; [done|done|done|exact Hcast|].
  intros ->. pose proof (for_each_length _ _ _ _ _ Hrun). done.
Qed.

(** ** encrypt *)

(** C3.  When encrypt returns on a pad store, the encrypted sequence is
    as long as the message, and the index at every position [i] points
    at a pad entry equal to the byte of the message at [i] and was
    marked unused in the mask the loop held when it reached position
    [i], that is after the first [i] turns of the same call. *)
Theorem encrypt_indices message pad unused r encrypted s' :
  pad_store pad unused →
  encrypt message pad (Store unused r) = (Ok encrypted, s') →
  length encrypted = length message ∧
  ∀ i index, encrypted !! i = Some index →
    ∃ c rs s_i,
      message_int message !! i = Some c ∧
      pad !! Z.to_nat index = Some c ∧
      loop_prefix message pad i (Store unused r) = (Ok rs, s_i) ∧
      st_unused s_i !! Z.to_nat index = Some true.
Proof.
  intros Hps Henc. pose proof Hps as [Hlen Hsz].
  destruct (encrypt_Ok _ _ _ _ _ _ Hps Henc) as (rs & Hrun & Hsel & Hst & -> & _).
  pose proof (selection_length _ _ _ _ Hsel) as Hl.
  rewrite length_message_int in Hl.
  split; [by rewrite length_fmap|].
  intros i index Hi. apply list_lookup_fmap_Some in Hi as (p & -> & Hp).
  rewrite Nat2Z.id.
  pose proof (selection_lookup _ _ _ _ _ _ Hsel Hp) as Hpad.
  pose proof (lookup_lt_Some _ _ _ Hp) as Hlt.
  destruct (lookup_lt_is_Some_2 (message_int message) i) as [c Hc].
  { rewrite length_message_int. lia. }
  rewrite loop_prefix_all in Hrun.
  destruct (for_each_take_Ok _ _ _ _ _ i Hrun) as [s1 Hrun1].
  apply encrypt_loop_Ok in Hrun1 as Hsel1; [|done|].
  2:{ intros c' (j & Hj & _)%elem_of_take.
      apply make_lookup_Some. by eapply list_elem_of_lookup_2. }
  destruct Hsel1 as [_ Hst1]. simpl in Hst1.
  exists c, (take i rs), s1. split_and!; [done|congruence|done|].
  rewrite Hst1, fmap_take.
  by apply (selection_fresh _ _ _ _ _ _ Hsel Hp).
Qed.

(** When turn [k] of the loop finds no candidate, position [k] is the
    first starved one. *)
Lemma selection_then_starved pad unused m k c idxs :
  m !! k = Some c →
  selection pad unused (take k m) idxs →
  candidates pad (consume idxs unused) c = [] →
  starved pad unused m k ∧ ∀ j, j < k → ¬ starved pad unused m j.
Proof.
  intros Hk Hsel Hc.
  pose proof (lookup_lt_Some _ _ _ Hk) as Hklt.
  assert (length (take k m) = k) as Hlk by (rewrite length_take; lia).
  split.
  - rewrite <- (take_drop_middle m k c Hk), (cons_middle c), app_assoc.
    apply starved_prefix; [rewrite length_app; simpl; lia|].
    pose proof (selection_starved _ _ _ _ _ Hsel Hc) as H.
    by rewrite Hlk in H.
  - intros j Hj. rewrite <- (take_drop k m).
    rewrite starved_prefix by lia. by eapply selection_not_starved.
Qed.

(** C4.  On a pad and mask of equal length, encrypt raises IndexError
    (the source's pad exhaustion) exactly when some symbol is starved:
    processing the message in order, one matching index consumed per
    symbol, its candidate set is empty.  This is stated twice, by
    counting ([starved], which no random choice influences) and on the
    run itself (some turn of the loop is reached and finds its
    candidate set empty).  At the first starved position
    [k] the first [k] turns of the loop have succeeded, turn [k] finds
    no candidate, and the mask encrypt leaves is the one those [k]
    turns produced: every index they consumed was unused before and
    stays consumed. *)
Theorem encrypt_exhaustion message pad unused r :
  length unused = length pad →
  let m := message_int message in
  let exhausted :=
    ∃ s', encrypt message pad (Store unused r) = (Raise IndexError, s') in
  (exhausted ↔ ∃ k, starved pad unused m k) ∧
  (exhausted ↔
   ∃ k c rs s_k, m !! k = Some c ∧
     loop_prefix message pad k (Store unused r) = (Ok rs, s_k) ∧
     candidates pad (st_unused s_k) c = []) ∧
  ∀ k, starved pad unused m k → (∀ j, j < k → ¬ starved pad unused m j) →
    ∃ c rs s_k,
      m !! k = Some c ∧
      loop_prefix message pad k (Store unused r) = (Ok rs, s_k) ∧
      candidates pad (st_unused s_k) c = [] ∧
      encrypt message pad (Store unused r) = (Raise IndexError, s_k) ∧
      ∀ p, p ∈ rs.*1 → unused !! p = Some true ∧ st_unused s_k !! p = Some false.
Proof.
  intros Hlen m exhausted.
  assert (∀ k c rs s_k, m !! k = Some c →
            loop_prefix message pad k (Store unused r) = (Ok rs, s_k) →
            candidates pad (st_unused s_k) c = [] →
            starved pad unused m k) as Hturn.
  { intros k c rs s_k Hk Hrun Hc.
    apply encrypt_loop_Ok in Hrun as [Hsel Hst]; [|done|].
    2:{ intros c' (j & Hj & _)%elem_of_take.
        apply make_lookup_Some. by eapply list_elem_of_lookup_2. }
    simpl in Hsel, Hst. rewrite Hst in Hc.
    by destruct (selection_then_starved pad unused m k c rs.*1 Hk Hsel Hc). }
  destruct (encrypt_loop_cases message pad unused r Hlen)
    as [(rs & s' & Hrun & Hsel & Hst)|(k & c & rs & s' & Hk & Hrun & Hsel & Hst & Hc & Hall)];
    fold m in Hrun, Hsel |- *.
  - (* every turn finds a candidate *)
    assert (∀ k, ¬ starved pad unused m k) as Hno
      by (intros k; by eapply selection_not_starved).
    assert (¬ exhausted) as Hnot.
    { intros [s1 Henc]. rewrite encrypt_unfold in Henc.
      unfold m in Hrun. rewrite length_message_int, loop_prefix_all in Hrun.
      rewrite Hrun in Henc. by destruct rs. }
    split_and!.
    + split; [done|]. intros [k Hk]. by destruct (Hno k).
    + split; [done|]. intros (k & c & rs' & s_k & Hk & Hrun' & Hc).
      destruct (Hno k). by eapply Hturn.
    + intros k Hk. by destruct (Hno k).
  - (* turn k finds none *)
    fold m in Hk, Hall.
    assert (encrypt message pad (Store unused r) = (Raise IndexError, s')) as Henc.
    { rewrite encrypt_unfold. unfold m in Hall.
      rewrite length_message_int, loop_prefix_all in Hall. by rewrite Hall. }
    assert exhausted as Hex by (by exists s').
    destruct (selection_then_starved pad unused m k c rs.*1 Hk Hsel)
      as [Hstarved Hearlier]; [by rewrite <- Hst|].
    split_and!.
    + split; eauto.
    + split; [|done]. intros _. by exists k, c, rs, s'.
    + intros k' Hk' Hmin.
      assert (k' = k) as ->.
      { destruct (Nat.lt_trichotomy k' k) as [Hlt|[->|Hgt]]; [|done|].
        - by destruct (Hearlier k' Hlt).
        - by destruct (Hmin k Hgt). }
      exists c, rs, s'. split_and!; [done..|].
      intros p Hp. split; [by eapply selection_unused|].
      rewrite Hst. apply consume_elem; [done|].
      rewrite Hlen. by eapply selection_lt.
Qed.

(** C1.  encrypt does not return for the empty message: the loop runs
    no turn, and statistics.min() of the empty statistics raises
    ValueError, whatever the pad, with the mask untouched.  So the round
    trip the claim states for every message fails at the empty one;
    [decrypt_encrypt] and [encrypt_returns] below give it for the others. *)
Theorem encrypt_empty_message pad unused r :
  encrypt [] pad (Store unused r) = (Raise ValueError, Store unused r).
Proof. reflexivity. Qed.

Lemma chr_message_int c :
  (c < 256)%N → chr (byte_to_Z (astype_uint8 (ord c))) = Ok c.
Proof.
  intros Hc. unfold astype_uint8, ord. rewrite byte_to_of_Z.
  rewrite Z.mod_mod by lia. rewrite Z.mod_small by lia. unfold chr.
  rewrite decide_True by lia. by rewrite N2Z.id.
Qed.

(** Round trip for the messages encrypt accepts. *)
Lemma decrypt_encrypt message pad unused r encrypted s' :
  pad_store pad unused →
  Forall (λ c, (c < 256)%N) message →
  encrypt message pad (Store unused r) = (Ok encrypted, s') →
  decrypt encrypted pad = Ok message.
Proof.
  intros Hps Hbytes Henc. pose proof Hps as [Hlen Hsz].
  destruct (encrypt_Ok _ _ _ _ _ _ Hps Henc) as (rs & _ & Hsel & _ & -> & _).
  unfold decrypt.
  assert (np_take pad (Z.of_nat <$> rs.*1) = Ok (message_int message)) as ->.
  { apply result_map_Forall2, Forall2_fmap_l.
    eapply Forall2_impl; [by eapply selection_Forall2|].
    intros p c Hp. unfold compose. cbv beta in Hp |- *.
    rewrite resolve_index_small; [|apply (lookup_lt_Some _ _ _ Hp)|done].
    simpl. by rewrite Hp. }
  simpl. apply result_map_Forall2. unfold message_int.
  apply Forall2_fmap_l, Forall_Forall2_diag.
  eapply Forall_impl; [done|]. intros c Hc. by apply chr_message_int.
Qed.

(** encrypt returns for a non-empty message none of whose symbols is
    starved. *)
Lemma encrypt_returns message pad unused r :
  length unused = length pad → message ≠ [] →
  (∀ k, ¬ starved pad unused (message_int message) k) →
  ∃ encrypted s', encrypt message pad (Store unused r) = (Ok encrypted, s').
Proof.
  intros Hlen Hne Hno.
  destruct (encrypt_loop_cases message pad unused r Hlen)
    as [(rs & s' & Hrun & Hsel & Hst)|(k & c & rs & s' & Hk & Hrun & Hsel & Hst & Hc & Hall)].
  - rewrite length_message_int, loop_prefix_all in Hrun.
    rewrite encrypt_unfold, Hrun.
    destruct rs as [|x rs]; [|by eauto].
    apply selection_length in Hsel. rewrite length_message_int in Hsel.
    destruct message; done.
  - destruct (selection_then_starved pad unused _ k c rs.*1 Hk Hsel)
      as [Hstarved _]; [by rewrite <- Hst|].
    by destruct (Hno k).
Qed.

(** C10.  encrypt does not reject a message at the conversion to uint8,
    whatever the code points of its characters, also above 255.  On a
    pad store: every character becomes its code point modulo 256; the
    call runs exactly as on the message in which every character is
    replaced by its low byte; it returns whenever the message is not
    empty and none of the converted symbols is starved; when it raises,
    it is ValueError for the empty message or IndexError for a starved
    symbol, never the conversion; and when it returns, there is one
    index per character, and the index of a character points at a pad
    entry that holds the character's code point modulo 256. *)
Theorem encrypt_low_byte message pad unused r :
  pad_store pad unused →
  let low := (λ c, (c mod 256)%N) <$> message in
  byte_to_Z <$> message_int message = (λ c, Z.of_N c mod 256)%Z <$> message ∧
  message_int low = message_int message ∧
  (∀ s, encrypt low pad s = encrypt message pad s) ∧
  (message ≠ [] → (∀ k, ¬ starved pad unused (message_int message) k) →
   ∃ encrypted s', encrypt message pad (Store unused r) = (Ok encrypted, s')) ∧
  (∀ e s', encrypt message pad (Store unused r) = (Raise e, s') →
   (e = ValueError ∧ message = []) ∨
   (e = IndexError ∧ ∃ k, starved pad unused (message_int message) k)) ∧
  (∀ encrypted s', encrypt message pad (Store unused r) = (Ok encrypted, s') →
   length encrypted = length message ∧
   ∀ i c, message !! i = Some c →
     ∃ p, encrypted !! i = Some (Z.of_nat p) ∧
       byte_to_Z <$> pad !! p = Some (Z.of_N c mod 256)%Z).
Proof.
  intros Hps low. pose proof Hps as [Hlen Hsz].
  assert (∀ c, byte_to_Z (astype_uint8 (ord c)) = (Z.of_N c mod 256)%Z) as Hbyte.
  { intros c. unfold astype_uint8, ord. by rewrite byte_to_of_Z, Z.mod_mod. }
  assert (message_int low = message_int message) as Hlow.
  { unfold low, message_int. rewrite <- list_fmap_compose. apply list_fmap_ext.
    intros i c _. simpl. unfold astype_uint8, ord.
    rewrite N2Z.inj_mod. by rewrite Z.mod_mod. }
  split; [|split; [done|split; [|split; [|split]]]].
  - unfold message_int. rewrite <- list_fmap_compose. apply list_fmap_ext.
    intros i c _. apply Hbyte.
  - intros s. unfold encrypt. by rewrite Hlow.
  - intros Hne Hno. by apply encrypt_returns.
  - intros e s' Henc. rewrite encrypt_unfold in Henc.
    destruct (encrypt_loop_cases message pad unused r Hlen)
      as [(rs & s1 & Hrun & Hsel & Hst)|(k & c & rs & s1 & Hk & Hrun & Hsel & Hst & Hc & Hall)].
    + rewrite length_message_int, loop_prefix_all in Hrun. rewrite Hrun in Henc.
      destruct rs as [|x rs]; [|done]. left. injection Henc as <- <-.
      split; [done|]. apply selection_length in Hsel.
      rewrite length_message_int in Hsel. by destruct message.
    + rewrite length_message_int, loop_prefix_all in Hall. rewrite Hall in Henc.
      injection Henc as <- <-. right. split; [done|]. exists k.
      destruct (selection_then_starved pad unused _ k c rs.*1 Hk Hsel)
        as [Hstarved _]; [by rewrite <- Hst|done].
  - intros encrypted s' Henc.
    destruct (encrypt_Ok _ _ _ _ _ _ Hps Henc) as (rs & _ & Hsel & _ & -> & _).
    pose proof (selection_length _ _ _ _ Hsel) as Hl.
    rewrite length_message_int in Hl.
    split; [by rewrite length_fmap|].
    intros i c Hc.
    assert (message_int message !! i = Some (astype_uint8 (ord c))) as Hm.
    { unfold message_int. by rewrite list_lookup_fmap, Hc. }
    destruct (lookup_lt_is_Some_2 rs.*1 i) as [p Hp].
    { rewrite Hl. by eapply lookup_lt_Some. }
    exists p. split; [by rewrite list_lookup_fmap, Hp|].
    rewrite (selection_lookup _ _ _ _ _ _ Hsel Hp), Hm. simpl. by rewrite Hbyte.
Qed.

(** ** base64 *)

Lemma b64_char_spec v :
  (0 ≤ v < 64)%Z →
  b64_char v ≠ "="%char ∧ b64_value (b64_char v) = Some v ∧
  is_ascii (b64_char v) = true.
Proof.
  intros Hv. rewrite <- (Z2Nat.id v) by lia.
  assert (Z.to_nat v < 64) as Hn by lia.
  generalize dependent (Z.to_nat v). clear. intros n Hn.
  do 64 (destruct n as [|n]; [by vm_compute|]). lia.
Qed.

(** The shifts and masks of the decoder on two sextets, as arithmetic. *)
Lemma sextet_bits l v :
  (0 ≤ l < 64)%Z → (0 ≤ v < 64)%Z →
  Z.lor (Z.shiftl l 2) (Z.shiftr v 4) = (l * 4 + v / 16)%Z ∧
  Z.lor (Z.shiftl (Z.land l 15) 4) (Z.shiftr v 2) = (l mod 16 * 16 + v / 4)%Z ∧
  Z.lor (Z.shiftl (Z.land l 3) 6) v = (l mod 4 * 64 + v)%Z.
Proof.
  intros Hl Hv.
  pose (ok := λ a b : Z,
    (Z.lor (Z.shiftl a 2) (Z.shiftr b 4) =? a * 4 + b / 16)%Z &&
    (Z.lor (Z.shiftl (Z.land a 15) 4) (Z.shiftr b 2) =? a mod 16 * 16 + b / 4)%Z &&
    (Z.lor (Z.shiftl (Z.land a 3) 6) b =? a mod 4 * 64 + b)%Z).
  assert (forallb (λ a, forallb (λ b, ok (Z.of_nat a) (Z.of_nat b))
                          (seq 0 64)) (seq 0 64) = true) as Hall by (by vm_compute).
  rewrite forallb_forall in Hall.
  specialize (Hall (Z.to_nat l)). rewrite forallb_forall in Hall.
  specialize (Hall ltac:(apply in_seq; lia) (Z.to_nat v) ltac:(apply in_seq; lia)).
  rewrite !Z2Nat.id in Hall by lia. unfold ok in Hall.
  apply andb_true_iff in Hall as [[H1 H2]%andb_true_iff H3].
  apply Z.eqb_eq in H1, H2, H3. done.
Qed.

Lemma byte_of_Z_eq z x : (z mod 256)%Z = byte_to_Z x → byte_of_Z z = x.
Proof. intros H. by rewrite <- byte_of_Z_mod, H, byte_of_to_Z. Qed.

Lemma list_ind3 {A} (P : list A → Prop) :
  P [] → (∀ x, P [x]) → (∀ x y, P [x; y]) →
  (∀ x y z l, P l → P (x :: y :: z :: l)) →
  ∀ l, P l.
Proof.
  intros H0 H1 H2 H3 l.
  assert (P l ∧ (∀ x, P (x :: l)) ∧ (∀ x y, P (x :: y :: l))) as [? _].
  { induction l as [|a l (IH0 & IH1 & IH2)]; [by auto|].
    split_and!; [done|done|]. intros x y. by apply H3. }
  done.
Qed.

(** One step of the decoder on a character of the alphabet. *)
Lemma a2b_base64_sextet v data quad_pos leftchar pads :
  (0 ≤ v < 64)%Z →
  a2b_base64 (b64_char v :: data) quad_pos leftchar pads =
  match quad_pos with
  | 0 => a2b_base64 data 1 v 0
  | 1 =>
      do bs <- a2b_base64 data 2 (Z.land v 15) 0 ;
      Ok (byte_of_Z (Z.lor (Z.shiftl leftchar 2) (Z.shiftr v 4)) :: bs)
  | 2 =>
      do bs <- a2b_base64 data 3 (Z.land v 3) 0 ;
      Ok (byte_of_Z (Z.lor (Z.shiftl leftchar 4) (Z.shiftr v 2)) :: bs)
  | _ =>
      do bs <- a2b_base64 data 0 0 0 ;
      Ok (byte_of_Z (Z.lor (Z.shiftl leftchar 6) v) :: bs)
  end.
Proof.
  intros Hv. destruct (b64_char_spec v Hv) as (Hne & Hval & _).
  cbn [a2b_base64]. rewrite decide_False by done. by rewrite Hval.
Qed.

Lemma a2b_base64_quanta b : a2b_base64 (b64_quanta b) 0 0 0 = Ok b.
Proof.
  induction b as [|x|x y|x y z rest IH] using list_ind3.
  - done.
  - pose proof (byte_to_Z_range x).
    cbn [b64_quanta]. cbv zeta.
    rewrite !a2b_base64_sextet by div_mod_lia.
    cbn [a2b_base64]. rewrite !(decide_True (P := "="%char = "="%char)) by done.
    rewrite !(decide_True (P := 2 ≤ 2)) by lia.
    rewrite decide_False by lia. rewrite decide_True by lia.
    cbn [result_bind]. do 2 f_equal. apply byte_of_Z_eq.
    destruct (sextet_bits (byte_to_Z x / 4) (byte_to_Z x mod 4 * 16))
      as (-> & _); div_mod_lia.
  - pose proof (byte_to_Z_range x). pose proof (byte_to_Z_range y).
    cbn [b64_quanta]. cbv zeta.
    set (n := (byte_to_Z x * 256 + byte_to_Z y)%Z).
    assert (0 ≤ n < 65536)%Z by (unfold n; lia).
    rewrite !a2b_base64_sextet by div_mod_lia.
    cbn [a2b_base64]. rewrite !(decide_True (P := "="%char = "="%char)) by done.
    rewrite !(decide_True (P := 2 ≤ 3)) by lia. rewrite decide_True by lia.
    cbn [result_bind].
    destruct (sextet_bits (n / 1024) (n / 16 mod 64)) as (-> & _); [div_mod_lia..|].
    destruct (sextet_bits (n / 16 mod 64) (n mod 16 * 4)) as (_ & -> & _);
      [div_mod_lia..|].
    f_equal. f_equal; [|f_equal]; apply byte_of_Z_eq; unfold n; div_mod_lia.
  - pose proof (byte_to_Z_range x). pose proof (byte_to_Z_range y).
    pose proof (byte_to_Z_range z).
    cbn [b64_quanta]. cbv zeta.
    set (n := (byte_to_Z x * 65536 + byte_to_Z y * 256 + byte_to_Z z)%Z).
    assert (0 ≤ n < 16777216)%Z by (unfold n; lia).
    rewrite !a2b_base64_sextet by div_mod_lia. rewrite IH.
    cbn [result_bind].
    destruct (sextet_bits (n / 262144) (n / 4096 mod 64)) as (-> & _); [div_mod_lia..|].
    destruct (sextet_bits (n / 4096 mod 64) (n / 64 mod 64)) as (_ & -> & _);
      [div_mod_lia..|].
    destruct (sextet_bits (n / 64 mod 64) (n mod 64)) as (_ & _ & ->);
      [div_mod_lia..|].
    f_equal. f_equal; [|f_equal; [|f_equal]]; apply byte_of_Z_eq; unfold n; div_mod_lia.
Qed.

Lemma is_ascii_quanta b : forallb is_ascii (b64_quanta b) = true.
Proof.
  induction b as [|x|x y|x y z rest IH] using list_ind3.
  - done.
  - pose proof (byte_to_Z_range x).
    cbn [b64_quanta forallb]. cbv zeta.
    by rewrite !(λ v H, proj2 (proj2 (b64_char_spec v H))) by div_mod_lia.
  - pose proof (byte_to_Z_range x). pose proof (byte_to_Z_range y).
    cbn [b64_quanta forallb]. cbv zeta.
    by rewrite !(λ v H, proj2 (proj2 (b64_char_spec v H))) by div_mod_lia.
  - pose proof (byte_to_Z_range x). pose proof (byte_to_Z_range y).
    pose proof (byte_to_Z_range z).
    cbn [b64_quanta forallb]. cbv zeta. rewrite IH.
    by rewrite !(λ v H, proj2 (proj2 (b64_char_spec v H))) by div_mod_lia.
Qed.

Lemma b64decode_b64encode b : b64decode (b64encode b) = Ok b.
Proof.
  unfold b64decode, b64encode. cbv zeta.
  rewrite list_ascii_of_string_of_list_ascii, is_ascii_quanta.
  apply a2b_base64_quanta.
Qed.

(** The decoder outside the image of the encoder, as binascii has it:
    padding before the second sextet of a quantum is ignored, text after
    a completed padding is not read, characters outside the alphabet are
    skipped, an unfinished quantum raises binascii.Error, and a
    character that is not ASCII raises ValueError. *)
Lemma b64decode_lenient :
  b64decode "AAAA=" = Ok [x00; x00; x00] ∧
  b64decode "=AAAA" = Ok [x00; x00; x00] ∧
  b64decode "QUJBQw==QUJB" = Ok [x41; x42; x41; x43] ∧
  b64decode "QUJB Qw==" = Ok [x41; x42; x41; x43] ∧
  b64decode "QUJBQw=" = Raise BinasciiError ∧
  b64decode "QUJBQ" = Raise BinasciiError ∧
  b64decode (String (ascii_of_nat 200) "QUJB") = Raise ValueError.
Proof. by vm_compute. Qed.

(** ** tostring and fromstring *)

Lemma le_value_le_bytes8 v : is_uint64 v → le_value (le_bytes8 v) = v.
Proof.
  unfold is_uint64. word_bounds. intros Hv.
  unfold le_bytes8, le_value. cbn [foldr]. rewrite !byte_to_of_Z.
  change (2 ^ 8)%Z with 256%Z. change (2 ^ 16)%Z with 65536%Z.
  change (2 ^ 24)%Z with 16777216%Z. change (2 ^ 32)%Z with 4294967296%Z.
  change (2 ^ 40)%Z with 1099511627776%Z. change (2 ^ 48)%Z with 281474976710656%Z.
  change (2 ^ 56)%Z with 72057594037927936%Z.
  div_mod_lia.
Qed.

Lemma fromstring_tostring_uint64 (a : list Z) :
  Forall is_uint64 a → from_le_bytes8 (a ≫= le_bytes8) = Ok a.
Proof.
  induction 1 as [|v a Hv _ IH]; [done|].
  rewrite bind_cons. unfold le_bytes8 at 1. cbn [app from_le_bytes8].
  rewrite IH. cbn [result_bind]. do 2 f_equal. by apply le_value_le_bytes8.
Qed.

Lemma fromstring_tostring_bool (a : list bool) :
  fromstring bool_ (tostring bool_ a) = Ok a.
Proof.
  cbn [fromstring tostring]. f_equal. rewrite <- list_fmap_compose.
  rewrite <- (list_fmap_id a) at 2. apply list_fmap_ext. by intros _ [] _.
Qed.

(** ** The stand-in libraries meet the interface *)

Lemma pos_of_digits_of_pos p : pos_of_digits (digits_of_pos p) = p.
Proof. induction p as [p IH|p IH|]; simpl; by rewrite ?IH. Qed.

Lemma stored_libraries_spec : LibrariesSpec stored_libraries.
Proof.
  split.
  - done.
  - intros d. cbn [json_loads json_dumps stored_libraries].
    unfold digits_loads, digits_dumps.
    by rewrite pos_of_digits_of_pos, decode_encode.
Qed.

(** ** to_packed and to_native *)

Section CodecFacts.
Context {L : Libraries} {LS : LibrariesSpec L}.

Lemma to_native_to_packed_uint8 (a : list byte) compress :
  to_native (to_packed uint8 a compress) uint8 compress = Ok a.
Proof.
  unfold to_native, to_packed. destruct compress.
  - rewrite b64decode_b64encode. cbn [result_bind].
    by rewrite zlib_round_trip.
  - by rewrite b64decode_b64encode.
Qed.

Lemma to_native_to_packed_bool (a : list bool) compress :
  to_native (to_packed bool_ a compress) bool_ compress = Ok a.
Proof.
  unfold to_native, to_packed. destruct compress.
  - rewrite b64decode_b64encode. cbn [result_bind].
    rewrite zlib_round_trip. cbn [result_bind]. apply fromstring_tostring_bool.
  - rewrite b64decode_b64encode. cbn [result_bind]. apply fromstring_tostring_bool.
Qed.

Lemma to_native_to_packed_uint64 (a : list Z) compress :
  Forall is_uint64 a →
  to_native (to_packed uint64 a compress) uint64 compress = Ok a.
Proof.
  intros Ha. unfold to_native, to_packed. destruct compress.
  - rewrite b64decode_b64encode. cbn [result_bind].
    rewrite zlib_round_trip. cbn [result_bind].
    by apply fromstring_tostring_uint64.
  - rewrite b64decode_b64encode. cbn [result_bind].
    by apply fromstring_tostring_uint64.
Qed.

Lemma unpack_pad_pack_pad pad unused :
  unpack_pad (pack_pad pad unused) = Ok (pad, unused).
Proof.
  unfold unpack_pad, pack_pad. rewrite json_round_trip. cbn [result_bind].
  unfold dict_getitem.
  rewrite lookup_insert_ne, lookup_insert_eq by done. cbn [result_bind].
  unfold dtype_pad. rewrite to_native_to_packed_uint8. cbn [result_bind].
  rewrite lookup_insert_eq. cbn [result_bind].
  by rewrite to_native_to_packed_bool.
Qed.

(** C5.  With zlib and json inverting their own output, unpack_pad
    gives back the pad and the usage mask pack_pad was handed, and
    to_native with dtype_message and decompress=True gives back the
    uint64 index sequence to_packed with compress=True was handed. *)
Theorem codec_round_trip :
  (∀ pad unused, unpack_pad (pack_pad pad unused) = Ok (pad, unused)) ∧
  (∀ msg, Forall is_uint64 msg →
     to_native (to_packed dtype_message msg true) dtype_message true = Ok msg).
Proof.
  split; [apply unpack_pad_pack_pad|].
  intros msg Hmsg. by apply to_native_to_packed_uint64.
Qed.
End CodecFacts.

(** ** PadWriter *)

(** The mask encrypt leaves behind, whether it returns or raises, is
    the mask it was given with some positions consumed. *)
Lemma encrypt_mask message pad unused r res s' :
  length unused = length pad →
  encrypt message pad (Store unused r) = (res, s') →
  ∃ idxs, st_unused s' = consume idxs unused.
Proof.
  intros Hlen. rewrite encrypt_unfold, <- loop_prefix_all, <- length_message_int.
  destruct (encrypt_loop_cases message pad unused r Hlen)
    as [(rs & s1 & -> & _ & Hst)|(k & c & rs & s1 & _ & _ & _ & Hst & _ & ->)].
  - destruct rs; intros [= _ <-]; eauto.
  - intros [= _ <-]; eauto.
Qed.

Section PadWriterFacts.
Context {L : Libraries}.

Lemma encrypt_message_unfold message w :
  encrypt_message message w =
  match encrypt message (self_pad w) (Store (self_unused w) (entropy w)) with
  | (Ok encrypted, st) =>
      (Ok (to_packed dtype_message encrypted true),
       Session (self_file_name w) (self_pad w) (st_unused st)
         (<[self_file_name w := pack_pad (self_pad w) (st_unused st)]> (files w))
         (st_rng st))
  | (Raise e, st) =>
      (Raise e,
       Session (self_file_name w) (self_pad w) (st_unused st) (files w) (st_rng st))
  end.
Proof.
  unfold encrypt_message, bind, call_encrypt.
  by destruct (encrypt _ _ _) as [[encrypted|e] st].
Qed.

Lemma decrypt_message_unfold encrypted w :
  decrypt_message encrypted w =
  match to_native encrypted dtype_message true with
  | Ok encrypted_array =>
      match decrypt encrypted_array (self_pad w) with
      | Ok decrypted =>
          match result_map (resolve_index (length (self_unused w))) encrypted_array with
          | Ok ps =>
              let unused' := consume ps (self_unused w) in
              (Ok decrypted,
               Session (self_file_name w) (self_pad w) unused'
                 (<[self_file_name w := pack_pad (self_pad w) unused']> (files w))
                 (entropy w))
          | Raise e => (Raise e, w)
          end
      | Raise e => (Raise e, w)
      end
  | Raise e => (Raise e, w)
  end.
Proof.
  unfold decrypt_message, bind, lift, mark_used, np_put.
  destruct (to_native _ _ _) as [arr|e]; [|done].
  destruct (decrypt _ _) as [msg|e]; [|done].
  by destruct (result_map _ _) as [ps|e].
Qed.

(** What a transaction does to the session. *)
Lemma transact_mask t w r w' :
  length (self_unused w) = length (self_pad w) →
  transact t w = (r, w') →
  self_pad w' = self_pad w ∧ self_file_name w' = self_file_name w ∧
  ∃ idxs, self_unused w' = consume idxs (self_unused w).
Proof.
  intros Hlen. destruct t as [message|encrypted]; simpl.
  - rewrite encrypt_message_unfold.
    destruct (encrypt _ _ _) as [res st] eqn:Henc.
    apply encrypt_mask in Henc as [idxs Hst]; [|done].
    destruct res; intros [= <- <-]; simpl; eauto.
  - rewrite decrypt_message_unfold.
    destruct (to_native _ _ _) as [arr|e];
      [|intros [= <- <-]; split_and!; [done..|by exists []]].
    destruct (decrypt _ _) as [msg|e];
      [|intros [= <- <-]; split_and!; [done..|by exists []]].
    destruct (result_map _ _) as [ps|e];
      [|intros [= <- <-]; split_and!; [done..|by exists []]].
    intros [= <- <-]; simpl; eauto.
Qed.
End PadWriterFacts.

Lemma uint64_of_index (pad : list byte) p :
  (Z.of_nat (length pad) ≤ 2 ^ 63)%Z → p < length pad → is_uint64 (Z.of_nat p).
Proof. unfold is_uint64. word_bounds. lia. Qed.

Section SessionFacts.
Context {L : Libraries} {LS : LibrariesSpec L}.

(** What a successful encrypt_message leaves in the session and on disc. *)
Lemma encrypt_message_Ok message w text w' :
  pad_store (self_pad w) (self_unused w) →
  encrypt_message message w = (Ok text, w') →
  ∃ idxs,
    selection (self_pad w) (self_unused w) (message_int message) idxs ∧
    to_native text dtype_message true = Ok (Z.of_nat <$> idxs) ∧
    self_pad w' = self_pad w ∧ self_file_name w' = self_file_name w ∧
    self_unused w' = consume idxs (self_unused w) ∧
    files w' !! self_file_name w = Some (pack_pad (self_pad w) (self_unused w')).
Proof.
  intros Hps. rewrite encrypt_message_unfold.
  destruct (encrypt _ _ _) as [[encrypted|e] st] eqn:Henc; [|done].
  intros [= <- <-].
  destruct (encrypt_Ok _ _ _ _ _ _ Hps Henc) as (rs & _ & Hsel & Hst & -> & _).
  exists rs.*1. split_and!; [done| |done|done|done|].
  - apply (to_native_to_packed_uint64 (Z.of_nat <$> rs.*1) true).
    apply Forall_fmap, Forall_forall. intros p Hp. apply (uint64_of_index (self_pad w)); [apply Hps|].
    by eapply selection_lt.
  - simpl. by rewrite lookup_insert_eq.
Qed.

(** C6.  After a successful encrypt_message on a session whose pad and
    mask form a pad store, the document stored under the session's file
    name decodes to the pad of before the call and to a mask that
    differs from the mask of before the call exactly at the indices the
    returned ciphertext decodes to; each of these was unused and is now
    consumed. *)
Theorem encrypt_message_persists message w text w' :
  pad_store (self_pad w) (self_unused w) →
  encrypt_message message w = (Ok text, w') →
  ∃ content encrypted unused',
    files w' !! self_file_name w = Some content ∧
    unpack_pad content = Ok (self_pad w, unused') ∧
    to_native text dtype_message true = Ok encrypted ∧
    length unused' = length (self_unused w) ∧
    (∀ j, unused' !! j ≠ self_unused w !! j ↔ Z.of_nat j ∈ encrypted) ∧
    (∀ j, Z.of_nat j ∈ encrypted →
       self_unused w !! j = Some true ∧ unused' !! j = Some false).
Proof.
  intros Hps Henc.
  destruct (encrypt_message_Ok _ _ _ _ Hps Henc)
    as (idxs & Hsel & Htext & Hpad & Hname & Hmask & Hfile).
  exists (pack_pad (self_pad w) (self_unused w')), (Z.of_nat <$> idxs), (self_unused w').
  assert (∀ j, j ∈ idxs →
    self_unused w !! j = Some true ∧ self_unused w' !! j = Some false) as Hin.
  { intros j Hj. split; [by eapply selection_unused|].
    rewrite Hmask. apply consume_elem; [done|].
    destruct Hps as [-> _]. by eapply selection_lt. }
  split_and!; [done|apply unpack_pad_pack_pad|done| | |].
  - by rewrite Hmask, length_consume.
  - intros j. rewrite list_elem_of_fmap_inj by apply _. split.
    + intros Hne. destruct (decide (j ∈ idxs)) as [|Hnot]; [done|].
      by rewrite Hmask, consume_other in Hne.
    + intros [Ht Hf]%Hin. congruence.
  - intros j Hj. apply Hin. by apply (list_elem_of_fmap_inj Z.of_nat).
Qed.
End SessionFacts.

Section DecryptFacts.
Context {L : Libraries}.

Lemma consume_idem ps unused :
  (∀ p, p ∈ ps → unused !! p = Some false) → consume ps unused = unused.
Proof.
  revert unused. induction ps as [|p ps IH]; intros unused Hps; [done|].
  rewrite consume_cons, list_insert_id by (apply Hps; by left).
  apply IH. intros q Hq. apply Hps. by right.
Qed.

Lemma resolve_index_lt n i p : resolve_index n i = Ok p → p < n.
Proof.
  unfold resolve_index. repeat case_decide; intros [= <-]; lia.
Qed.

(** C8.  After a decrypt_message call that returns, every index of the
    decoded ciphertext resolves to a mask position that is marked
    consumed; and decrypting the same ciphertext again returns the same
    message and leaves the whole session, mask included, as the first
    call left it. *)
Theorem decrypt_message_marks encrypted w message w' :
  decrypt_message encrypted w = (Ok message, w') →
  ∃ encrypted_array,
    to_native encrypted dtype_message true = Ok encrypted_array ∧
    (∀ index, index ∈ encrypted_array →
       ∃ p, resolve_index (length (self_unused w)) index = Ok p ∧
            self_unused w' !! p = Some false) ∧
    decrypt_message encrypted w' = (Ok message, w').
Proof.
  rewrite decrypt_message_unfold.
  destruct (to_native _ _ _) as [arr|e] eqn:Harr; [|done].
  destruct (decrypt _ _) as [msg|e] eqn:Hdec; [|done].
  destruct (result_map _ _) as [ps|e] eqn:Hps; [|done].
  intros [= <- <-]. exists arr.
  apply result_map_Forall2 in Hps as Hall.
  assert (∀ p, p ∈ ps → consume ps (self_unused w) !! p = Some false) as Hmarked.
  { intros p Hp. apply consume_elem; [done|].
    apply list_elem_of_lookup in Hp as [k Hk].
    destruct (Forall2_lookup_r _ _ _ _ _ Hall Hk) as (i & _ & Hi).
    by eapply resolve_index_lt. }
  split_and!; [done| |].
  - intros index [k Hk]%list_elem_of_lookup.
    destruct (Forall2_lookup_l _ _ _ _ _ Hall Hk) as (p & Hp & Hres).
    exists p. split; [done|]. simpl. apply Hmarked.
    by eapply list_elem_of_lookup_2.
  - rewrite decrypt_message_unfold. simpl.
    rewrite Harr, Hdec, length_consume, Hps. simpl.
    rewrite (consume_idem ps (consume ps _)) by done.
    by rewrite insert_insert_eq.
Qed.
End DecryptFacts.

Section RunFacts.
Context {L : Libraries} {LS : LibrariesSpec L}.

Lemma transact_step t w r w' :
  pad_store (self_pad w) (self_unused w) →
  transact t w = (r, w') →
  pad_store (self_pad w') (self_unused w') ∧
  (∃ idxs, self_unused w' = consume idxs (self_unused w)) ∧
  handed_out w w' (ciphertext_indices r).
Proof.
  intros Hps Ht.
  destruct (transact_mask t w r w' (proj1 Hps) Ht) as (Hpad & _ & idxs & Hmask).
  split_and!; [|by eauto|].
  { destruct Hps as [Hlen Hsz]. split; [|by rewrite Hpad].
    by rewrite Hmask, length_consume, Hpad. }
  destruct t as [message|encrypted]; simpl in Ht.
  - destruct (encrypt_message message w) as [[text|e] w1] eqn:Henc;
      injection Ht as <- <-; [|split; [constructor|by intros e' ?%elem_of_nil]].
    destruct (encrypt_message_Ok _ _ _ _ Hps Henc)
      as (sel & Hsel & Htext & _ & _ & Hmask' & _).
    unfold ciphertext_indices. rewrite Htext. split.
    + apply NoDup_fmap_2; [apply _|]. by eapply selection_NoDup.
    + intros e (p & -> & Hp)%list_elem_of_fmap. exists p.
      split_and!; [done|by eapply selection_unused|].
      rewrite Hmask'. apply consume_elem; [done|].
      destruct Hps as [-> _]. by eapply selection_lt.
  - destruct (decrypt_message encrypted w) as [[m|e] w1];
      injection Ht as <- <-; (split; [constructor|by intros e' ?%elem_of_nil]).
Qed.

Lemma run_invariant ts w replies w' :
  pad_store (self_pad w) (self_unused w) →
  run ts w = (replies, w') →
  pad_store (self_pad w') (self_unused w') ∧
  (∀ j, self_unused w !! j = Some false → self_unused w' !! j = Some false) ∧
  handed_out w w' (returned_indices replies).
Proof.
  revert w replies. induction ts as [|t ts IH]; intros w replies Hps; simpl.
  { intros [= <- <-]. split_and!; [done|done|].
    split; [constructor|by intros e ?%elem_of_nil]. }
  destruct (transact t w) as [r w1] eqn:Ht.
  destruct (run ts w1) as [rs w2] eqn:Hrun. intros [= <- <-].
  destruct (transact_step _ _ _ _ Hps Ht) as (Hps1 & [idxs Hmask] & Hnd1 & Hout1).
  destruct (IH _ _ Hps1 Hrun) as (Hps2 & Hmono & Hnd2 & Hout2).
  assert (∀ j, self_unused w !! j = Some false → self_unused w1 !! j = Some false)
    as Hmono1 by (intros j Hj; rewrite Hmask; by apply consume_false).
  split_and!; [done|by auto|].
  unfold returned_indices. rewrite bind_cons. fold (returned_indices rs). split.
  - apply NoDup_app. split_and!; [done| |done].
    intros e (p & -> & _ & Hf)%Hout1 (p' & ->%(inj Z.of_nat) & Ht' & _)%Hout2.
    congruence.
  - intros e [He|He]%elem_of_app.
    + destruct (Hout1 e He) as (p & -> & Htrue & Hfalse).
      exists p. split_and!; [done..|]. by apply Hmono.
    + destruct (Hout2 e He) as (p & -> & Htrue & Hfalse).
      exists p. split_and!; [done| |done].
      destruct (self_unused w !! p) as [[]|] eqn:Hp; [done| |].
      * apply Hmono1 in Hp. congruence.
      * apply lookup_ge_None in Hp. apply lookup_lt_Some in Htrue.
        rewrite Hmask, length_consume in Htrue. lia.
Qed.

Lemma run_app ts1 ts2 w :
  run (ts1 ++ ts2) w =
  let '(r1, w1) := run ts1 w in
  let '(r2, w2) := run ts2 w1 in
  (r1 ++ r2, w2).
Proof.
  revert w. induction ts1 as [|t ts1 IH]; intros w; simpl.
  - by destruct (run ts2 w).
  - destruct (transact t w) as [r w1]. rewrite IH.
    destruct (run ts1 w1) as [r1 w2]. by destruct (run ts2 w2).
Qed.

(** C2.  Along any sequence of encrypt_message and decrypt_message
    transactions on a session that starts as a pad store, between any
    two points of the sequence a mask entry that is false stays false,
    and the indices handed out by the encrypt transactions of the whole
    sequence contain no index twice. *)
Theorem mask_monotonic_no_reuse ts1 ts2 w r1 w1 r2 w2 :
  pad_store (self_pad w) (self_unused w) →
  run ts1 w = (r1, w1) →
  run ts2 w1 = (r2, w2) →
  (∀ j, self_unused w1 !! j = Some false → self_unused w2 !! j = Some false) ∧
  NoDup (returned_indices (r1 ++ r2)).
Proof.
  intros Hps H1 H2.
  destruct (run_invariant _ _ _ _ Hps H1) as (Hps1 & _ & _).
  destruct (run_invariant _ _ _ _ Hps1 H2) as (_ & Hmono & _).
  split; [done|].
  assert (run (ts1 ++ ts2) w = (r1 ++ r2, w2)) as Hrun
    by (by rewrite run_app, H1, H2).
  by destruct (run_invariant _ _ _ _ Hps Hrun) as (_ & _ & Hnd & _).
Qed.
End RunFacts.

(** ** generate_pad *)

Lemma getrandbits_range k r :
  (0 ≤ k)%Z →
  ∃ bits, getrandbits k r = (Ok bits, (draw r).2) ∧ (0 ≤ bits < 2 ^ k)%Z.
Proof.
  intros Hk. unfold getrandbits. rewrite decide_False by lia.
  destruct (draw r) as [v r'] eqn:Hd. simpl.
  eexists. split; [done|].
  replace (2 ^ k - 1)%Z with (Z.ones k) by (rewrite Z.ones_equiv; lia).
  rewrite Z.land_comm, Z.land_ones by done.
  apply Z.mod_pos_bound. by apply Z.pow_pos_nonneg.
Qed.

Lemma length_long_to_bytes n : length (long_to_bytes n) = byte_length n.
Proof. unfold long_to_bytes. by rewrite length_fmap, length_reverse, length_seq. Qed.

Lemma byte_length_bound n len :
  (0 < len)%Z → (0 ≤ n < 2 ^ (len * 8))%Z →
  (1 ≤ Z.of_nat (byte_length n) ≤ len)%Z ∧
  (Z.of_nat (byte_length n) = len ↔ (n = 0 ∧ len = 1 ∨ 2 ^ ((len - 1) * 8) ≤ n)%Z).
Proof.
  intros Hlen [Hn0 Hn]. unfold byte_length. case_decide as Hz.
  - assert (n = 0)%Z as -> by lia. split; [lia|]. split; [lia|].
    intros [[_ ->]|Hp]; [done|].
    pose proof (Z.pow_pos_nonneg 2 ((len - 1) * 8)). lia.
  - assert (0 < n)%Z as Hpos by lia.
    pose proof (Z.log2_nonneg n) as Hl0.
    apply Z.log2_lt_pow2 in Hn; [|done].
    rewrite Z2Nat.id by (apply Z.add_nonneg_nonneg; [apply Z.div_pos|]; lia).
    split; [div_mod_lia|]. split.
    + intros Heq. right. apply Z.log2_le_pow2; [done|]. div_mod_lia.
    + intros [[-> _]|Hp]; [lia|].
      apply Z.log2_le_pow2 in Hp; [|done]. div_mod_lia.
Qed.

(** What generate_pad returns for a positive length: a pad of at most
    [length] bytes, of exactly [length] bytes only when the leading
    byte of the random number is not zero, and an all-true mask as long
    as the pad. *)
Lemma generate_pad_shape len r :
  (0 < len)%Z →
  ∃ bits pad,
    getrandbits (len * 8) r = (Ok bits, (draw r).2) ∧
    generate_pad len r = (Ok (pad, replicate (length pad) true), (draw r).2) ∧
    pad = long_to_bytes bits ∧
    (1 ≤ Z.of_nat (length pad) ≤ len)%Z ∧
    (Z.of_nat (length pad) = len ↔ (bits = 0 ∧ len = 1 ∨ 2 ^ ((len - 1) * 8) ≤ bits)%Z).
Proof.
  intros Hlen. destruct (getrandbits_range (len * 8) r) as (bits & Hbits & Hrange); [lia|].
  exists bits, (long_to_bytes bits). unfold generate_pad, bind. rewrite Hbits.
  destruct (byte_length_bound bits len Hlen Hrange) as [Hle Heq].
  rewrite length_long_to_bytes. by repeat (split; [done|]).
Qed.

(** A freshly generated store is a pad store with nothing consumed. *)
Lemma generate_pad_pad_store len r pad unused r' :
  (0 < len ≤ 2 ^ 63)%Z →
  generate_pad len r = (Ok (pad, unused), r') →
  pad_store pad unused ∧ unused = replicate (length pad) true.
Proof.
  intros [Hpos Hle] Hgen.
  destruct (generate_pad_shape len r Hpos) as (bits & pad' & _ & Hgen' & _ & Hlen & _).
  rewrite Hgen in Hgen'. injection Hgen' as -> -> ->.
  split; [|done]. split; [by rewrite length_replicate|]. lia.
Qed.

(** C7.  generate_pad asked for two bytes, when the sixteen random bits
    come out as 5: long_to_bytes drops the leading zero byte and the pad
    has one byte, not two.  [generate_pad_shape] above states what holds
    in general. *)
Theorem generate_pad_short :
  generate_pad 2 (Rng (λ _, 5%N) 0) = (Ok ([x05], [true]), Rng (λ _, 5%N) 1).
Proof. reflexivity. Qed.

(** C9 (amended).  For a requested length below zero generate_pad
    fails with ValueError, raised by getrandbits before any entropy is
    read, and so do _new_pad and the creation of a PadWriter on a file
    that does not exist: no pad store is produced. *)
Theorem negative_length_rejected `{L : Libraries} len r :
  (len < 0)%Z →
  generate_pad len r = (Raise ValueError, r) ∧
  _new_pad (Some len) r = (Raise ValueError, r) ∧
  ∀ file_name fs, fs !! file_name = None →
    PadWriter file_name (Some len) fs r = Raise ValueError.
Proof.
  intros Hlen.
  assert (generate_pad len r = (Raise ValueError, r)) as Hgen.
  { unfold generate_pad, bind, getrandbits. by rewrite decide_True by lia. }
  split_and!; [done|done|].
  intros file_name fs Hfs. unfold PadWriter.
  rewrite decide_False by (rewrite Hfs; by intros [? ?]).
  unfold _new_pad. by rewrite Hgen.
Qed.

(** C9, as stated, fails at length zero: generate_pad returns the
    one-byte pad [0] with a one-entry mask. *)
Lemma zero_length_accepted :
  generate_pad 0 (Rng (λ _, 0%N) 0) = (Ok ([x00], [true]), Rng (λ _, 0%N) 1) ∧
  ¬ ∃ e, (generate_pad 0 (Rng (λ _, 0%N) 0)).1 = Raise e.
Proof. split; [reflexivity|]. by intros [e ?]. Qed.

(** ** More on encrypt and decrypt *)

Lemma message_int_nil message : message_int message = [] ↔ message = [].
Proof.
  unfold message_int. split; [apply fmap_nil_inv|by intros ->].
Qed.

Lemma selection_sum pad unused m idxs :
  selection pad unused m idxs →
  np_sum (consume idxs unused) + length m = np_sum unused.
Proof.
  induction 1 as [|unused c m i idxs Hi Hs IH]; [simpl; lia|].
  rewrite consume_cons. simpl.
  apply elem_of_candidates in Hi as [Hu _].
  pose proof (np_sum_insert_true unused i Hu). lia.
Qed.

(** X1.  The outcomes of encrypt on a pad and mask of equal length:
    it returns exactly when the message is not empty and none of its
    symbols is starved; it raises ValueError exactly for the empty
    message; and it raises nothing but IndexError or ValueError (the
    lookup table always holds the symbol, the shapes always agree). *)
Theorem encrypt_outcomes message pad unused r :
  length unused = length pad →
  let m := message_int message in
  let outcome := (encrypt message pad (Store unused r)).1 in
  ((∃ encrypted, outcome = Ok encrypted) ↔
   message ≠ [] ∧ ∀ k, ¬ starved pad unused m k) ∧
  (outcome = Raise ValueError ↔ message = []) ∧
  (∀ e, outcome = Raise e → e = IndexError ∨ e = ValueError).
Proof.
  intros Hlen m outcome. subst m outcome. rewrite encrypt_unfold.
  destruct (encrypt_loop_cases message pad unused r Hlen)
    as [(rs & s' & Hrun & Hsel & Hst)|(k & c & rs & s' & Hk & Hrun & Hsel & Hst & Hc & Hall)].
  - rewrite length_message_int, loop_prefix_all in Hrun.
    rewrite Hrun.
    assert (∀ k, ¬ starved pad unused (message_int message) k) as Hno
      by (intros k; by eapply selection_not_starved).
    pose proof (selection_length _ _ _ _ Hsel) as Hl.
    rewrite length_message_int, length_fmap in Hl.
    destruct rs as [|x rs]; simpl.
    + assert (message = []) as -> by (by destruct message).
      split_and!; [|done|intros e [= <-]; by right].
      split; [by intros [? ?]|by intros [? _]].
    + assert (message ≠ []) as Hne by (by intros ->).
      split_and!; [|done|done].
      split; [done|]. intros _. eauto.
  - rewrite length_message_int, loop_prefix_all in Hall. rewrite Hall. simpl.
    destruct (selection_then_starved pad unused _ k c rs.*1 Hk Hsel)
      as [Hstarved _]; [by rewrite <- Hst|].
    assert (message ≠ []) as Hne.
    { intros ->. done. }
    split_and!; [|done|intros e [= <-]; by left].
    split; [by intros [? ?]|]. intros [_ Hno]. by destruct (Hno k).
Qed.

(** X2.  A call of encrypt that returns on a pad store consumes exactly
    one unused pad position per character: the number of unused entries
    drops by the length of the message, the mask keeps its length, and
    the returned indices are pairwise distinct and inside the pad. *)
Theorem encrypt_capacity message pad unused r encrypted s' :
  pad_store pad unused →
  encrypt message pad (Store unused r) = (Ok encrypted, s') →
  np_sum (st_unused s') + length message = np_sum unused ∧
  length (st_unused s') = length unused ∧
  NoDup encrypted ∧
  ∀ e, e ∈ encrypted → (0 ≤ e < Z.of_nat (length pad))%Z.
Proof.
  intros Hps Henc.
  destruct (encrypt_Ok _ _ _ _ _ _ Hps Henc) as (rs & _ & Hsel & Hst & -> & _).
  rewrite Hst. split_and!.
  - rewrite <- (length_message_int message). by eapply selection_sum.
  - apply length_consume.
  - apply NoDup_fmap_2; [apply _|]. by eapply selection_NoDup.
  - intros e (p & -> & Hp)%list_elem_of_fmap.
    pose proof (selection_lt _ _ _ _ _ Hsel Hp). lia.
Qed.

(** X3.  When the mask and the pad differ in length and neither has
    length one, np.logical_and cannot broadcast them: encrypt of a
    non-empty message raises ValueError at the first symbol, before any
    entropy is drawn or any mask entry is changed. *)
Theorem encrypt_shape_mismatch message pad unused r :
  length unused ≠ length pad → length unused ≠ 1 → length pad ≠ 1 →
  message ≠ [] →
  encrypt message pad (Store unused r) = (Raise ValueError, Store unused r).
Proof.
  intros Hne Hu Hp Hm. rewrite encrypt_unfold.
  destruct message as [|c message]; [done|].
  unfold message_int. rewrite fmap_cons. fold (message_int message).
  cbn [for_each]. unfold bind at 1.
  unfold encrypt_symbol, bind, get_unused, lift, dict_getitem.
  rewrite make_lookup_Some by (by left). cbn [st_unused].
  unfold logical_and, np_equal. rewrite length_fmap.
  by rewrite !decide_False by done.
Qed.

Lemma resolve_index_cases n i :
  (∃ p, resolve_index n i = Ok p ∧ p < n) ∨ resolve_index n i = Raise IndexError.
Proof.
  unfold resolve_index. repeat case_decide; [left|left|by right];
    eexists; (split; [done|lia]).
Qed.

Lemma chr_byte b : chr (byte_to_Z b) = Ok (Z.to_N (byte_to_Z b)).
Proof.
  pose proof (byte_to_Z_range b). unfold chr. by rewrite decide_True by lia.
Qed.

(** X4.  The outcomes of decrypt.  When it returns, the message is as
    long as the index sequence and its character at [i] is the pad byte
    at the position the index at [i] resolves to; when it raises, the
    exception is IndexError and some index of the sequence is out of
    the pad's bounds. *)
Theorem decrypt_outcomes encrypted pad :
  match decrypt encrypted pad with
  | Ok message =>
      length message = length encrypted ∧
      ∀ i e, encrypted !! i = Some e →
        ∃ p b, resolve_index (length pad) e = Ok p ∧ pad !! p = Some b ∧
               message !! i = Some (Z.to_N (byte_to_Z b))
  | Raise err =>
      err = IndexError ∧
      ∃ i e, encrypted !! i = Some e ∧
             resolve_index (length pad) e = Raise IndexError
  end.
Proof.
  unfold decrypt, np_take.
  induction encrypted as [|e encrypted IH]; [by split|].
  cbn [result_map]. unfold result_bind at 2 3.
  destruct (resolve_index_cases (length pad) e) as [(p & Hp & Hlt)|Hp]; rewrite Hp.
  2:{ simpl. split; [done|]. by exists 0, e. }
  destruct (lookup_lt_is_Some_2 pad p Hlt) as [b Hb]. rewrite Hb.
  cbn [result_bind] in IH |- *.
  destruct (result_map _ encrypted) as [values|err]; cbn [result_bind] in IH |- *.
  - cbn [result_map]. rewrite chr_byte. cbn [result_bind].
    destruct (result_map _ values) as [message|err]; cbn [result_bind].
    + destruct IH as [IHl IHc]. split; [simpl; by rewrite IHl|].
      intros [|i] e' He'; simpl in He'.
      * injection He' as <-. by exists p, b.
      * by apply IHc.
    + destruct IH as [-> (i & e' & ? & ?)]. split; [done|]. by exists (S i), e'.
  - destruct IH as [-> (i & e' & ? & ?)]. split; [done|]. by exists (S i), e'.
Qed.

(** ** More on generate_pad *)

Lemma head_long_to_bytes n :
  (0 < n)%Z → ∃ b, head (long_to_bytes n) = Some b ∧ b ≠ x00.
Proof.
  intros Hn. unfold long_to_bytes, byte_length.
  rewrite decide_False by lia.
  pose proof (Z.log2_nonneg n) as Hl0.
  destruct (Z.log2_spec n Hn) as [Hlo Hhi].
  set (k := (Z.log2 n / 8)%Z).
  assert (0 ≤ k)%Z as Hk by (apply Z.div_pos; lia).
  replace (Z.to_nat (k + 1)) with (S (Z.to_nat k)) by lia.
  rewrite seq_S, reverse_app. simpl.
  eexists. split; [done|].
  rewrite Z2Nat.id by done.
  assert (256 ^ k = 2 ^ (8 * k))%Z as Hpow.
  { change 256%Z with (2 ^ 8)%Z. by rewrite <- Z.pow_mul_r by lia. }
  assert (0 < 256 ^ k)%Z as Hpos by (apply Z.pow_pos_nonneg; lia).
  assert (256 ^ k ≤ n)%Z as Hle.
  { rewrite Hpow. etrans; [|exact Hlo]. apply Z.pow_le_mono_r; [lia|].
    unfold k. div_mod_lia. }
  assert (n < 256 * 256 ^ k)%Z as Hlt.
  { eapply Z.lt_le_trans; [exact Hhi|].
    rewrite Hpow. change 256%Z with (2 ^ 8)%Z at 1.
    rewrite <- Z.pow_add_r by lia. apply Z.pow_le_mono_r; [lia|].
    unfold k. div_mod_lia. }
  assert (1 ≤ n / 256 ^ k < 256)%Z as Hq.
  { split.
    - apply Z.div_le_lower_bound; lia.
    - apply Z.div_lt_upper_bound; lia. }
  intros Hz. apply (f_equal byte_to_Z) in Hz.
  rewrite byte_to_of_Z, Z.mod_small in Hz by lia.
  change (byte_to_Z x00) with 0%Z in Hz. lia.
Qed.

(** X5.  For a positive length generate_pad returns after one draw a
    pad of at least one and at most [length] bytes with an all-true
    mask of the pad's own length; and the pad never starts with a zero
    byte, unless it is the single byte 0. *)
Theorem generate_pad_fresh len r :
  (0 < len)%Z →
  ∃ pad,
    generate_pad len r = (Ok (pad, replicate (length pad) true), (draw r).2) ∧
    (1 ≤ Z.of_nat (length pad) ≤ len)%Z ∧
    (head pad = Some x00 → pad = [x00]).
Proof.
  intros Hlen.
  destruct (generate_pad_shape len r Hlen)
    as (bits & pad & Hbits & Hgen & -> & Hl & _).
  exists (long_to_bytes bits). split; [done|]. split; [done|].
  destruct (getrandbits_range (len * 8) r) as (bits' & Hbits' & Hrange); [lia|].
  rewrite Hbits in Hbits'. injection Hbits' as <-.
  destruct (decide (bits = 0%Z)) as [->|Hnz]; [done|].
  destruct (head_long_to_bytes bits) as (b & Hb & Hbz); [lia|].
  rewrite Hb. by intros [= ->].
Qed.

(** ** More on the codec and the session *)

Section MoreSessionFacts.
Context {L : Libraries} {LS : LibrariesSpec L}.

(** X6.  unpack_pad on a document without the key 'pad', or with a
    decodable 'pad' but without the key 'unused', raises KeyError. *)
Theorem unpack_pad_missing_key (d : gmap string string) :
  (d !! "pad" = None → unpack_pad (json_dumps d) = Raise KeyError) ∧
  (∀ pad, d !! "pad" = Some (to_packed dtype_pad pad false) →
     d !! "unused" = None → unpack_pad (json_dumps d) = Raise KeyError).
Proof.
  unfold unpack_pad. rewrite json_round_trip. cbn [result_bind].
  unfold dict_getitem. split.
  - by intros ->.
  - intros pad -> ->. cbn [result_bind]. unfold dtype_pad.
    by rewrite to_native_to_packed_uint8.
Qed.

Lemma PadWriter_load file_name len fs r pad unused :
  fs !! file_name = Some (pack_pad pad unused) →
  PadWriter file_name len fs r = Ok (Session file_name pad unused fs r).
Proof.
  intros Hfs. unfold PadWriter. rewrite decide_True by (by rewrite Hfs).
  unfold _load_pad, dict_getitem. rewrite Hfs. cbn [result_bind].
  by rewrite unpack_pad_pack_pad.
Qed.

(** X7.  Creating a PadWriter on a file that does not exist generates
    the store with generate_pad (with default_pad_length when no length
    is given), writes it under the file name and nothing else; opening
    a PadWriter on that file afterwards, with any length and entropy,
    loads the same pad and mask, draws no entropy and writes nothing. *)
Theorem PadWriter_create_reopen file_name len fs r w :
  fs !! file_name = None →
  PadWriter file_name len fs r = Ok w →
  self_file_name w = file_name ∧
  generate_pad (default default_pad_length len) r =
    (Ok (self_pad w, self_unused w), entropy w) ∧
  files w = <[file_name := pack_pad (self_pad w) (self_unused w)]> fs ∧
  ∀ len' r', PadWriter file_name len' (files w) r' =
    Ok (Session file_name (self_pad w) (self_unused w) (files w) r').
Proof.
  intros Hfs. unfold PadWriter. rewrite decide_False by (rewrite Hfs; by intros [? ?]).
  unfold _new_pad.
  replace (match len with Some n => n | None => default_pad_length end)
    with (default default_pad_length len) by (by destruct len).
  destruct (generate_pad _ r) as [[[pad unused]|e] r1] eqn:Hgen; [|done].
  unfold _write_pad. simpl. intros [= <-]. simpl.
  split_and!; [done..|].
  intros len' r'. apply PadWriter_load. by rewrite lookup_insert_eq.
Qed.

(** X8.  After a transaction that returns, encrypt_message or
    decrypt_message, the file on disc holds the store of the session:
    a PadWriter opened on it afterwards has the same pad and mask. *)
Theorem transaction_durable t w reply w' len r :
  transact t w = (reply, w') →
  (∀ e, reply ≠ Failed e) →
  PadWriter (self_file_name w') len (files w') r =
    Ok (Session (self_file_name w') (self_pad w') (self_unused w') (files w') r).
Proof.
  intros Ht Hok. apply PadWriter_load.
  destruct t as [message|encrypted]; simpl in Ht.
  - rewrite encrypt_message_unfold in Ht.
    destruct (encrypt _ _ _) as [[enc|e] st]; injection Ht as <- <-;
      [|by destruct (Hok e)].
    simpl. by rewrite lookup_insert_eq.
  - rewrite decrypt_message_unfold in Ht.
    destruct (to_native _ _ _) as [arr|e];
      [|injection Ht as <- <-; by destruct (Hok e)].
    destruct (decrypt _ _) as [msg|e];
      [|injection Ht as <- <-; by destruct (Hok e)].
    destruct (result_map _ _) as [ps|e];
      [|injection Ht as <- <-; by destruct (Hok e)].
    injection Ht as <- <-. simpl. by rewrite lookup_insert_eq.
Qed.

(** X9.  When encrypt_message raises on a session with aligned pad and
    mask, nothing is written: the files, the pad and the file name are
    as before.  Either the message is empty, the exception is
    ValueError and the session is unchanged; or the exception is
    IndexError, raised at the first starved position [k], and the mask
    in memory has lost exactly [k] unused entries that the file does
    not record: if the file held the store before the call, a
    PadWriter opened afterwards loads the mask of before the call. *)
Theorem encrypt_message_failure message w e w' :
  length (self_unused w) = length (self_pad w) →
  encrypt_message message w = (Raise e, w') →
  files w' = files w ∧ self_pad w' = self_pad w ∧
  self_file_name w' = self_file_name w ∧
  (e = ValueError ∧ message = [] ∧ w' = w ∨
   e = IndexError ∧
   ∃ k, starved (self_pad w) (self_unused w) (message_int message) k ∧
        (∀ j, j < k → ¬ starved (self_pad w) (self_unused w) (message_int message) j) ∧
        np_sum (self_unused w') + k = np_sum (self_unused w)) ∧
  (∀ len r,
     files w !! self_file_name w = Some (pack_pad (self_pad w) (self_unused w)) →
     PadWriter (self_file_name w) len (files w') r =
       Ok (Session (self_file_name w) (self_pad w) (self_unused w) (files w) r)).
Proof.
  intros Hlen. rewrite encrypt_message_unfold.
  destruct (encrypt _ _ _) as [[enc|e'] st] eqn:Henc; [done|].
  intros [= <- <-]. simpl. split_and!; [done..| |].
  2:{ intros len r Hsync. by apply PadWriter_load. }
  rewrite encrypt_unfold in Henc.
  destruct (encrypt_loop_cases message (self_pad w) (self_unused w) (entropy w) Hlen)
    as [(rs & s' & Hrun & Hsel & Hst)|(k & c & rs & s' & Hk & Hrun & Hsel & Hst & Hc & Hall)].
  - rewrite length_message_int, loop_prefix_all in Hrun. rewrite Hrun in Henc.
    destruct rs as [|x rs]; [|done]. injection Henc as <- <-. left.
    apply selection_length in Hsel. rewrite length_message_int in Hsel.
    split_and!; [done|by destruct message|].
    simpl in Hst. rewrite Hst.
    assert (st_rng s' = entropy w) as ->.
    { destruct message; [|done]. by injection Hrun as <-. }
    by destruct w.
  - rewrite length_message_int, loop_prefix_all in Hall. rewrite Hall in Henc.
    injection Henc as <- <-. right. split; [done|]. exists k.
    destruct (selection_then_starved _ _ _ k c rs.*1 Hk Hsel)
      as [Hstarved Hearlier]; [by rewrite <- Hst|].
    split_and!; [done|done|].
    rewrite Hst. pose proof (selection_sum _ _ _ _ Hsel) as Hsum.
    rewrite length_take in Hsum. apply lookup_lt_Some in Hk. lia.
Qed.
End MoreSessionFacts.

(** X10.  A decrypt_message call that raises leaves the session as it
    was: mask, files and entropy. *)
Theorem decrypt_message_failure `{L : Libraries} encrypted w e w' :
  decrypt_message encrypted w = (Raise e, w') → w' = w.
Proof.
  rewrite decrypt_message_unfold.
  destruct (to_native _ _ _) as [arr|e1]; [|by intros [= _ <-]].
  destruct (decrypt _ _) as [msg|e1]; [|by intros [= _ <-]].
  destruct (result_map _ _) as [ps|e1]; [done|by intros [= _ <-]].
Qed.

(** ** Round trips *)

(** X11.  Round trip of the cipher: for a non-empty message of
    characters below 256, on a pad store in which no symbol of the
    message is starved, encrypt returns, and decrypt of what it returns
    is the message. *)
Theorem cipher_round_trip message pad unused r :
  pad_store pad unused →
  message ≠ [] →
  Forall (λ c, (c < 256)%N) message →
  (∀ k, ¬ starved pad unused (message_int message) k) →
  ∃ encrypted s',
    encrypt message pad (Store unused r) = (Ok encrypted, s') ∧
    decrypt encrypted pad = Ok message.
Proof.
  intros Hps Hne Hbytes Hno.
  destruct (encrypt_returns message pad unused r (proj1 Hps) Hne Hno)
    as (encrypted & s' & Henc).
  exists encrypted, s'. split; [done|]. by eapply decrypt_encrypt.
Qed.

Lemma resolve_selection pad unused m idxs n :
  selection pad unused m idxs → n = length pad → (Z.of_nat n ≤ 2 ^ 63)%Z →
  result_map (resolve_index n) (Z.of_nat <$> idxs) = Ok idxs.
Proof.
  intros Hsel -> Hn. apply result_map_Forall2, Forall2_fmap_l, Forall_Forall2_diag.
  apply Forall_forall. intros p Hp. apply resolve_index_small; [|done].
  by eapply selection_lt.
Qed.

Section RoundTripFacts.
Context {L : Libraries} {LS : LibrariesSpec L}.

(** What the receiver's decrypt_message does with a ciphertext the sender's
    encrypt_message returned. *)
Lemma decrypt_message_of_encrypted message w text w1 v :
  pad_store (self_pad w) (self_unused w) →
  Forall (λ c, (c < 256)%N) message →
  encrypt_message message w = (Ok text, w1) →
  self_pad v = self_pad w →
  length (self_unused v) = length (self_pad v) →
  ∃ idxs,
    to_native text dtype_message true = Ok (Z.of_nat <$> idxs) ∧
    self_unused w1 = consume idxs (self_unused w) ∧
    decrypt_message text v =
      (Ok message,
       Session (self_file_name v) (self_pad v) (consume idxs (self_unused v))
         (<[self_file_name v :=
              pack_pad (self_pad v) (consume idxs (self_unused v))]> (files v))
         (entropy v)).
Proof.
  intros Hps Hbytes Henc Hpad Hlen.
  destruct (encrypt_message_Ok _ _ _ _ Hps Henc)
    as (idxs & Hsel & Htext & _ & _ & Hmask & _).
  exists idxs. split_and!; [done|done|].
  rewrite decrypt_message_unfold, Htext, Hpad.
  assert (decrypt (Z.of_nat <$> idxs) (self_pad w) = Ok message) as ->.
  { rewrite encrypt_message_unfold in Henc.
    destruct (encrypt _ _ _) as [[enc|e] st] eqn:Henc'; [|done].
    destruct (encrypt_Ok _ _ _ _ _ _ Hps Henc') as (rs & _ & Hsel' & _ & Heq & _).
    rewrite <- (decrypt_encrypt _ _ _ _ _ _ Hps Hbytes Henc').
    f_equal. injection Henc as Ht _.
    assert (Ok (Z.of_nat <$> idxs) = Ok enc) as [= ->]; [|done].
    rewrite <- Htext, <- Ht.
    apply (to_native_to_packed_uint64 enc true). rewrite Heq.
    apply Forall_fmap, Forall_forall. intros p Hp.
    apply (uint64_of_index (self_pad w)); [apply Hps|]. by eapply selection_lt. }
  rewrite (resolve_selection _ _ _ _ _ Hsel) by (rewrite ?Hlen, ?Hpad; apply Hps || done).
  by rewrite <- Hpad.
Qed.

(** X12.  Round trip of a session: decrypt_message of the ciphertext
    that encrypt_message just returned, on the same session, returns
    the message (characters below 256) and leaves the session exactly
    as encrypt_message left it. *)
Theorem session_round_trip message w text w1 :
  pad_store (self_pad w) (self_unused w) →
  Forall (λ c, (c < 256)%N) message →
  encrypt_message message w = (Ok text, w1) →
  decrypt_message text w1 = (Ok message, w1).
Proof.
  intros Hps Hbytes Henc.
  destruct (encrypt_message_Ok _ _ _ _ Hps Henc)
    as (idxs & Hsel & Htext & Hpad & Hname & Hmask & _).
  destruct (decrypt_message_of_encrypted message w text w1 w1 Hps Hbytes Henc Hpad)
    as (idxs' & Htext' & _ & ->).
  { rewrite Hmask, length_consume, Hpad. apply Hps. }
  rewrite Htext in Htext'. injection Htext' as Heq.
  apply (inj (fmap Z.of_nat)) in Heq as <-.
  assert (consume idxs (self_unused w1) = self_unused w1) as ->.
  { apply consume_idem. intros p Hp. rewrite Hmask.
    apply consume_elem; [done|]. destruct Hps as [-> _]. by eapply selection_lt. }
  f_equal. rewrite encrypt_message_unfold in Henc.
  destruct (encrypt _ _ _) as [[enc|e] st]; [|done].
  injection Henc as _ <-. simpl. by rewrite insert_insert_eq.
Qed.

(** X13.  Sender and receiver: a ciphertext returned by encrypt_message
    on one session is decrypted to the message by decrypt_message on
    any session that holds the same pad with an aligned mask, and the
    receiver's mask loses the same positions as the sender's; masks
    that were equal before are equal afterwards. *)
Theorem receiver_decrypts message w text w1 v :
  pad_store (self_pad w) (self_unused w) →
  Forall (λ c, (c < 256)%N) message →
  encrypt_message message w = (Ok text, w1) →
  self_pad v = self_pad w →
  length (self_unused v) = length (self_pad v) →
  ∃ v1 idxs,
    decrypt_message text v = (Ok message, v1) ∧
    self_pad v1 = self_pad v ∧
    self_unused w1 = consume idxs (self_unused w) ∧
    self_unused v1 = consume idxs (self_unused v) ∧
    (self_unused v = self_unused w → self_unused v1 = self_unused w1).
Proof.
  intros Hps Hbytes Henc Hpad Hlen.
  destruct (decrypt_message_of_encrypted message w text w1 v Hps Hbytes Henc Hpad Hlen)
    as (idxs & _ & Hmask & Hdec).
  eexists _, idxs. split_and!; [exact Hdec|done|done|done|].
  simpl. intros ->. by rewrite Hmask.
Qed.
End RoundTripFacts.

(** ** What no transaction touches *)

Lemma encrypt_symbol_length pad lookup c s res s' :
  encrypt_symbol pad lookup c s = (res, s') →
  length (st_unused s') = length (st_unused s).
Proof.
  unfold encrypt_symbol, bind, get_unused, lift.
  destruct (dict_getitem lookup c) as [mask|e]; [|by intros [= _ <-]].
  destruct (logical_and _ _) as [options|e]; [|by intros [= _ <-]].
  unfold random_choice. destruct (np_nonzero options) as [|x cands];
    [by intros [= _ <-]|].
  destruct (draw (st_rng s)) as [v r1]. unfold setitem_unused. cbn [st_unused].
  case_decide; intros [= _ <-]; [|done]. cbn [st_unused]. apply length_insert.
Qed.

Lemma for_each_encrypt_length pad lookup m s res s' :
  for_each (encrypt_symbol pad lookup) m s = (res, s') →
  length (st_unused s') = length (st_unused s).
Proof.
  revert s res s'. induction m as [|c m IH]; intros s res s'; simpl.
  - by intros [= _ <-].
  - unfold bind. destruct (encrypt_symbol pad lookup c s) as [[y|e] s1] eqn:H1.
    + apply encrypt_symbol_length in H1.
      destruct (for_each _ m s1) as [[ys|e] s2] eqn:H2;
        apply IH in H2; intros [= _ <-]; congruence.
    + apply encrypt_symbol_length in H1. by intros [= _ <-].
Qed.

Lemma encrypt_length message pad s res s' :
  encrypt message pad s = (res, s') →
  length (st_unused s') = length (st_unused s).
Proof.
  rewrite encrypt_unfold.
  destruct (for_each _ _ s) as [[rs|e] s1] eqn:Hrun;
    apply for_each_encrypt_length in Hrun.
  - destruct rs; intros [= _ <-]; done.
  - by intros [= _ <-].
Qed.

Section Untouched.
Context {L : Libraries}.

Lemma transact_preserves t w :
  let w' := (transact t w).2 in
  self_pad w' = self_pad w ∧ self_file_name w' = self_file_name w ∧
  length (self_unused w') = length (self_unused w) ∧
  ∀ f, f ≠ self_file_name w → files w' !! f = files w !! f.
Proof.
  destruct t as [message|encrypted]; simpl.
  - rewrite encrypt_message_unfold.
    destruct (encrypt _ _ _) as [[enc|e] st] eqn:Henc;
      apply encrypt_length in Henc; simpl; split_and!; try done.
    intros f Hf. by rewrite lookup_insert_ne.
  - rewrite decrypt_message_unfold.
    destruct (to_native _ _ _) as [arr|e]; [|done].
    destruct (decrypt _ _) as [msg|e]; [|done].
    destruct (result_map _ _) as [ps|e]; [|done].
    simpl. split_and!; [done|done|apply length_consume|].
    intros f Hf. by rewrite lookup_insert_ne.
Qed.

(** X14.  No sequence of transactions changes the pad, the file name or
    the length of the mask of a session, and none touches a file other
    than the session's own. *)
Theorem run_preserves ts w :
  let w' := (run ts w).2 in
  self_pad w' = self_pad w ∧ self_file_name w' = self_file_name w ∧
  length (self_unused w') = length (self_unused w) ∧
  ∀ f, f ≠ self_file_name w → files w' !! f = files w !! f.
Proof.
  revert w. induction ts as [|t ts IH]; intros w; simpl; [done|].
  pose proof (transact_preserves t w) as Ht.
  destruct (transact t w) as [r w1]. simpl in Ht.
  specialize (IH w1). destruct (run ts w1) as [rs w2]. simpl in IH |- *.
  destruct Ht as (Hp1 & Hn1 & Hl1 & Hf1), IH as (Hp2 & Hn2 & Hl2 & Hf2).
  split_and!; [congruence..|].
  intros f Hf. rewrite Hf2 by congruence. by apply Hf1.
Qed.
End Untouched.

(** ** The sample data *)

Lemma sample_pad_store : pad_store sample_pad sample_unused.
Proof. split; [reflexivity|]. vm_compute. discriminate. Qed.

(** ** The scenarios of the specification *)

(** Pad A B A C, all unused, message AB: the ciphertext is (0,1) or
    (2,1), two entries of the mask are consumed, and it decrypts to AB. *)
Example scenario_AB r encrypted s' :
  encrypt [65; 66]%N sample_pad (Store sample_unused r) = (Ok encrypted, s') →
  (encrypted = [0; 1]%Z ∨ encrypted = [2; 1]%Z) ∧
  np_sum (st_unused s') = 2 ∧
  decrypt encrypted sample_pad = Ok [65; 66]%N.
Proof.
  intros Henc.
  destruct (encrypt_Ok _ _ _ _ _ _ sample_pad_store Henc)
    as (rs & _ & Hsel & Hst & -> & _).
  assert (rs.*1 = [0; 1] ∨ rs.*1 = [2; 1]) as Hrs.
  { change (message_int [65; 66]%N) with [x41; x42] in Hsel.
    inversion Hsel as [|? ? ? i idxs Hi Hsel1]; subst.
    inversion Hsel1 as [|? ? ? j idxs' Hj Hsel2]; subst.
    inversion Hsel2; subst.
    apply elem_of_candidates in Hi as [Hiu Hip].
    assert (i = 0 ∨ i = 2) as [->| ->].
    { do 4 (destruct i as [|i]; [by auto|]). done. }
    - apply elem_of_candidates in Hj as [Hju Hjp].
      do 4 (destruct j as [|j]; [by auto|]). done.
    - apply elem_of_candidates in Hj as [Hju Hjp].
      do 4 (destruct j as [|j]; [by auto|]). done. }
  destruct Hrs as [Hrs|Hrs]; rewrite Hrs in Hst |- *; rewrite Hst.
  - split_and!; [by left|done|done].
  - split_and!; [by right|done|done].
Qed.

(** Pad X of length one: the first X takes index 0, the second finds the
    pad exhausted. *)
Example scenario_X r :
  ∃ s1 s2,
    encrypt [88]%N [x58] (Store [true] r) = (Ok [0%Z], s1) ∧
    st_unused s1 = [false] ∧
    encrypt [88]%N [x58] s1 = (Raise IndexError, s2) ∧
    st_unused s2 = [false].
Proof.
  exists (Store [false] (draw r).2), (Store [false] (draw r).2).
  assert (encrypt [88]%N [x58] (Store [true] r) =
          (Ok [0%Z], Store [false] (draw r).2)) as H1.
  { rewrite encrypt_unfold. change (message_int [88]%N) with [x58].
    cbn [for_each]. unfold bind.
    destruct (encrypt_symbol_spec [x58] (make_lookup [x58] [x58]) x58
                (Store [true] r)) as [[Hc _]|(i & Hi & ->)]; [done|done|done|].
    apply list_elem_of_singleton in Hi as ->. done. }
  split_and!; [done|done| |done].
  reflexivity.
Qed.

(** ** The theorems at the sample data *)

Lemma mask_monotonic_no_reuse_witness :
  pad_store (self_pad sample_session) (self_unused sample_session) ∧
  (∀ j, self_unused sample_run1.2 !! j = Some false →
        self_unused sample_run2.2 !! j = Some false) ∧
  NoDup (returned_indices (L := stored_libraries) (sample_run1.1 ++ sample_run2.1)).
Proof.
  split; [exact sample_pad_store|].
  apply (@mask_monotonic_no_reuse stored_libraries stored_libraries_spec
           [Encrypt [65; 66]%N; Decrypt sample_ciphertext]
           [Encrypt [65]%N; Encrypt [65]%N] sample_session).
  - exact sample_pad_store.
  - vm_compute. reflexivity.
  - vm_compute. reflexivity.
Defined.

Lemma encrypt_indices_witness :
  pad_store sample_pad sample_unused ∧
  encrypt [65; 66]%N sample_pad (Store sample_unused sample_rng) =
    (Ok [0; 1]%Z, Store [false; false; true; true] (Rng (λ _, 0%N) 2)) ∧
  length [0; 1]%Z = length [65; 66]%N ∧
  ∀ i index, [0; 1]%Z !! i = Some index →
    ∃ c rs s_i,
      message_int [65; 66]%N !! i = Some c ∧
      sample_pad !! Z.to_nat index = Some c ∧
      loop_prefix [65; 66]%N sample_pad i (Store sample_unused sample_rng) = (Ok rs, s_i) ∧
      st_unused s_i !! Z.to_nat index = Some true.
Proof.
  split; [exact sample_pad_store|]. split; [reflexivity|].
  apply (encrypt_indices [65; 66]%N sample_pad sample_unused sample_rng
           [0; 1]%Z (Store [false; false; true; true] (Rng (λ _, 0%N) 2))).
  - exact sample_pad_store.
  - reflexivity.
Defined.

Lemma encrypt_low_byte_witness :
  pad_store sample_pad sample_unused ∧
  encrypt [321; 66]%N sample_pad (Store sample_unused sample_rng) =
    (Ok [0; 1]%Z, Store [false; false; true; true] (Rng (λ _, 0%N) 2)) ∧
  byte_to_Z <$> message_int [321; 66]%N = [65; 66]%Z ∧
  encrypt [65; 66]%N sample_pad (Store sample_unused sample_rng) =
    encrypt [321; 66]%N sample_pad (Store sample_unused sample_rng) ∧
  ∀ i c, [321; 66]%N !! i = Some c →
    ∃ p, [0; 1]%Z !! i = Some (Z.of_nat p) ∧
      byte_to_Z <$> sample_pad !! p = Some (Z.of_N c mod 256)%Z.
Proof.
  destruct (encrypt_low_byte [321; 66]%N sample_pad sample_unused sample_rng
              sample_pad_store) as (Hint & _ & Hsame & _ & _ & Hidx).
  split; [exact sample_pad_store|]. split; [reflexivity|].
  split; [exact Hint|]. split; [exact (Hsame _)|].
  exact (proj2 (Hidx [0; 1]%Z (Store [false; false; true; true] (Rng (λ _, 0%N) 2))
                  eq_refl)).
Defined.

Lemma encrypt_exhaustion_witness :
  length sample_unused = length sample_pad ∧
  let m := message_int [65; 65; 65]%N in
  let exhausted :=
    ∃ s', encrypt [65; 65; 65]%N sample_pad (Store sample_unused sample_rng) =
          (Raise IndexError, s') in
  (exhausted ↔ ∃ k, starved sample_pad sample_unused m k) ∧
  (exhausted ↔
   ∃ k c rs s_k, m !! k = Some c ∧
     loop_prefix [65; 65; 65]%N sample_pad k (Store sample_unused sample_rng) =
       (Ok rs, s_k) ∧
     candidates sample_pad (st_unused s_k) c = []) ∧
  ∀ k, starved sample_pad sample_unused m k →
    (∀ j, j < k → ¬ starved sample_pad sample_unused m j) →
    ∃ c rs s_k,
      m !! k = Some c ∧
      loop_prefix [65; 65; 65]%N sample_pad k (Store sample_unused sample_rng) =
        (Ok rs, s_k) ∧
      candidates sample_pad (st_unused s_k) c = [] ∧
      encrypt [65; 65; 65]%N sample_pad (Store sample_unused sample_rng) =
        (Raise IndexError, s_k) ∧
      ∀ p, p ∈ rs.*1 → sample_unused !! p = Some true ∧ st_unused s_k !! p = Some false.
Proof.
  split; [reflexivity|].
  apply (encrypt_exhaustion [65; 65; 65]%N sample_pad sample_unused sample_rng).
  reflexivity.
Defined.

Lemma codec_round_trip_witness :
  LibrariesSpec stored_libraries ∧
  unpack_pad (L := stored_libraries)
    (pack_pad (L := stored_libraries) sample_pad sample_unused) =
    Ok (sample_pad, sample_unused) ∧
  (Forall is_uint64 [0; 1]%Z →
   to_native (L := stored_libraries)
     (to_packed (L := stored_libraries) dtype_message [0; 1]%Z true)
     dtype_message true = Ok [0; 1]%Z).
Proof.
  split; [exact stored_libraries_spec|].
  split.
  - apply (proj1 (@codec_round_trip stored_libraries stored_libraries_spec)).
  - apply (proj2 (@codec_round_trip stored_libraries stored_libraries_spec)).
Defined.

Lemma encrypt_message_persists_witness :
  LibrariesSpec stored_libraries ∧
  pad_store (self_pad sample_session) (self_unused sample_session) ∧
  (encrypt_message (L := stored_libraries) [65; 66]%N sample_session).1 =
    Ok sample_ciphertext ∧
  ∃ content encrypted unused',
    files (encrypt_message (L := stored_libraries) [65; 66]%N sample_session).2
      !! self_file_name sample_session = Some content ∧
    unpack_pad (L := stored_libraries) content = Ok (self_pad sample_session, unused') ∧
    to_native (L := stored_libraries) sample_ciphertext dtype_message true = Ok encrypted ∧
    length unused' = length (self_unused sample_session) ∧
    (∀ j, unused' !! j ≠ self_unused sample_session !! j ↔ Z.of_nat j ∈ encrypted) ∧
    (∀ j, Z.of_nat j ∈ encrypted →
       self_unused sample_session !! j = Some true ∧ unused' !! j = Some false).
Proof.
  split; [exact stored_libraries_spec|].
  split; [exact sample_pad_store|].
  split; [vm_compute; reflexivity|].
  apply (@encrypt_message_persists stored_libraries stored_libraries_spec
           [65; 66]%N sample_session sample_ciphertext).
  - exact sample_pad_store.
  - vm_compute. reflexivity.
Defined.

Lemma decrypt_message_marks_witness :
  (decrypt_message (L := stored_libraries) sample_ciphertext sample_session).1 =
    Ok [65; 66]%N ∧
  ∃ encrypted_array,
    to_native (L := stored_libraries) sample_ciphertext dtype_message true =
      Ok encrypted_array ∧
    (∀ index, index ∈ encrypted_array →
       ∃ p, resolve_index (length (self_unused sample_session)) index = Ok p ∧
            self_unused (decrypt_message (L := stored_libraries)
                           sample_ciphertext sample_session).2 !! p = Some false) ∧
    decrypt_message (L := stored_libraries) sample_ciphertext
      (decrypt_message (L := stored_libraries) sample_ciphertext sample_session).2 =
    (Ok [65; 66]%N,
     (decrypt_message (L := stored_libraries) sample_ciphertext sample_session).2).
Proof.
  split; [vm_compute; reflexivity|].
  apply (@decrypt_message_marks stored_libraries sample_ciphertext sample_session).
  vm_compute. reflexivity.
Defined.

Lemma negative_length_rejected_witness :
  (-1 < 0)%Z ∧
  generate_pad (-1) sample_rng = (Raise ValueError, sample_rng) ∧
  _new_pad (Some (-1)%Z) sample_rng = (Raise ValueError, sample_rng) ∧
  ∀ file_name fs, fs !! file_name = None →
    PadWriter (L := stored_libraries) file_name (Some (-1)%Z) fs sample_rng =
      Raise ValueError.
Proof.
  split; [reflexivity|].
  apply (@negative_length_rejected stored_libraries (-1) sample_rng).
  reflexivity.
Defined.

Lemma sample_not_starved k :
  ¬ starved sample_pad sample_unused (message_int [65; 66]%N) k.
Proof.
  intros (c & Hk & Hle).
  destruct k as [|[|k]]; [| |done]; injection Hk as <-; vm_compute in Hle; lia.
Qed.

Lemma encrypt_outcomes_witness :
  length sample_unused = length sample_pad ∧
  let m := message_int [65; 66]%N in
  let outcome := (encrypt [65; 66]%N sample_pad (Store sample_unused sample_rng)).1 in
  ((∃ encrypted, outcome = Ok encrypted) ↔
   [65; 66]%N ≠ [] ∧ ∀ k, ¬ starved sample_pad sample_unused m k) ∧
  (outcome = Raise ValueError ↔ [65; 66]%N = []) ∧
  (∀ e, outcome = Raise e → e = IndexError ∨ e = ValueError).
Proof.
  split; [reflexivity|].
  apply (encrypt_outcomes [65; 66]%N sample_pad sample_unused sample_rng).
  reflexivity.
Defined.

Lemma encrypt_capacity_witness :
  pad_store sample_pad sample_unused ∧
  encrypt [65; 66]%N sample_pad (Store sample_unused sample_rng) =
    (Ok [0; 1]%Z, Store [false; false; true; true] (Rng (λ _, 0%N) 2)) ∧
  np_sum [false; false; true; true] + length [65; 66]%N = np_sum sample_unused ∧
  length [false; false; true; true] = length sample_unused ∧
  NoDup [0; 1]%Z ∧
  ∀ e, e ∈ [0; 1]%Z → (0 ≤ e < Z.of_nat (length sample_pad))%Z.
Proof.
  split; [exact sample_pad_store|]. split; [reflexivity|].
  apply (encrypt_capacity [65; 66]%N sample_pad sample_unused sample_rng
           [0; 1]%Z (Store [false; false; true; true] (Rng (λ _, 0%N) 2))).
  - exact sample_pad_store.
  - reflexivity.
Defined.

Lemma encrypt_shape_mismatch_witness :
  length [true; true] ≠ length sample_pad ∧ length [true; true] ≠ 1 ∧
  length sample_pad ≠ 1 ∧ [65]%N ≠ [] ∧
  encrypt [65]%N sample_pad (Store [true; true] sample_rng) =
    (Raise ValueError, Store [true; true] sample_rng).
Proof.
  split; [simpl; lia|]. split; [simpl; lia|]. split; [simpl; lia|].
  split; [discriminate|].
  apply (encrypt_shape_mismatch [65]%N sample_pad [true; true] sample_rng);
    simpl; (lia || discriminate).
Defined.

Lemma generate_pad_fresh_witness :
  (0 < 2)%Z ∧
  ∃ pad,
    generate_pad 2 sample_rng =
      (Ok (pad, replicate (length pad) true), (draw sample_rng).2) ∧
    (1 ≤ Z.of_nat (length pad) ≤ 2)%Z ∧
    (head pad = Some x00 → pad = [x00]).
Proof.
  split; [reflexivity|].
  apply (generate_pad_fresh 2 sample_rng). reflexivity.
Defined.

Lemma unpack_pad_missing_key_witness :
  LibrariesSpec stored_libraries ∧
  (∅ : gmap string string) !! "pad" = None ∧
  unpack_pad (L := stored_libraries) (@json_dumps stored_libraries ∅) =
    Raise KeyError.
Proof.
  split; [exact stored_libraries_spec|]. split; [reflexivity|].
  apply (proj1 (@unpack_pad_missing_key stored_libraries stored_libraries_spec ∅)).
  reflexivity.
Defined.

Lemma PadWriter_create_reopen_witness :
  LibrariesSpec stored_libraries ∧
  (∅ : gmap string string) !! "pad_data.json" = None ∧
  ∃ w,
    PadWriter (L := stored_libraries) "pad_data.json" (Some 2%Z) ∅
      (Rng (λ _, 16961%N) 0) = Ok w ∧
    self_pad w = [x42; x41] ∧
    self_file_name w = "pad_data.json" ∧
    generate_pad (default default_pad_length (Some 2%Z)) (Rng (λ _, 16961%N) 0) =
      (Ok (self_pad w, self_unused w), entropy w) ∧
    files w =
      <["pad_data.json" :=
          pack_pad (L := stored_libraries) (self_pad w) (self_unused w)]> ∅ ∧
    ∀ len' r', PadWriter (L := stored_libraries) "pad_data.json" len' (files w) r' =
      Ok (Session "pad_data.json" (self_pad w) (self_unused w) (files w) r').
Proof.
  split; [exact stored_libraries_spec|]. split; [reflexivity|].
  eexists. split; [vm_compute; reflexivity|]. split; [reflexivity|].
  apply (@PadWriter_create_reopen stored_libraries stored_libraries_spec
           "pad_data.json" (Some 2%Z) ∅ (Rng (λ _, 16961%N) 0)).
  - reflexivity.
  - vm_compute. reflexivity.
Defined.

Lemma transaction_durable_witness :
  LibrariesSpec stored_libraries ∧
  (transact (L := stored_libraries) (Encrypt [65; 66]%N) sample_session).1 =
    Ciphertext sample_ciphertext ∧
  ∀ len r,
    PadWriter (L := stored_libraries)
      (self_file_name (transact (L := stored_libraries)
                         (Encrypt [65; 66]%N) sample_session).2) len
      (files (transact (L := stored_libraries)
                (Encrypt [65; 66]%N) sample_session).2) r =
    Ok (Session
          (self_file_name (transact (L := stored_libraries)
                             (Encrypt [65; 66]%N) sample_session).2)
          (self_pad (transact (L := stored_libraries)
                       (Encrypt [65; 66]%N) sample_session).2)
          (self_unused (transact (L := stored_libraries)
                          (Encrypt [65; 66]%N) sample_session).2)
          (files (transact (L := stored_libraries)
                    (Encrypt [65; 66]%N) sample_session).2) r).
Proof.
  split; [exact stored_libraries_spec|]. split; [vm_compute; reflexivity|].
  intros len r.
  apply (@transaction_durable stored_libraries stored_libraries_spec
           (Encrypt [65; 66]%N) sample_session (Ciphertext sample_ciphertext)).
  - vm_compute. reflexivity.
  - discriminate.
Defined.

Lemma encrypt_message_failure_witness :
  LibrariesSpec stored_libraries ∧
  length (self_unused sample_session) = length (self_pad sample_session) ∧
  (encrypt_message (L := stored_libraries) [65; 65; 65]%N sample_session).1 =
    Raise IndexError ∧
  let w := sample_session in
  let w' := (encrypt_message (L := stored_libraries) [65; 65; 65]%N w).2 in
  self_unused w' = [false; true; false; true] ∧
  files w' = files w ∧ self_pad w' = self_pad w ∧
  self_file_name w' = self_file_name w ∧
  (IndexError = ValueError ∧ [65; 65; 65]%N = [] ∧ w' = w ∨
   IndexError = IndexError ∧
   ∃ k, starved (self_pad w) (self_unused w) (message_int [65; 65; 65]%N) k ∧
        (∀ j, j < k →
           ¬ starved (self_pad w) (self_unused w) (message_int [65; 65; 65]%N) j) ∧
        np_sum (self_unused w') + k = np_sum (self_unused w)) ∧
  (∀ len r,
     files w !! self_file_name w =
       Some (pack_pad (L := stored_libraries) (self_pad w) (self_unused w)) →
     PadWriter (L := stored_libraries) (self_file_name w) len (files w') r =
       Ok (Session (self_file_name w) (self_pad w) (self_unused w) (files w) r)).
Proof.
  split; [exact stored_libraries_spec|]. split; [reflexivity|].
  split; [vm_compute; reflexivity|]. intros w w'.
  split; [vm_compute; reflexivity|].
  apply (@encrypt_message_failure stored_libraries stored_libraries_spec
           [65; 65; 65]%N sample_session IndexError).
  - reflexivity.
  - vm_compute. reflexivity.
Defined.

Lemma decrypt_message_failure_witness :
  (decrypt_message (L := stored_libraries) "eAkAAAAAAAAA" sample_session).1 =
    Raise IndexError ∧
  (decrypt_message (L := stored_libraries) "eAkAAAAAAAAA" sample_session).2 =
    sample_session.
Proof.
  split; [vm_compute; reflexivity|].
  apply (@decrypt_message_failure stored_libraries "eAkAAAAAAAAA" sample_session
           IndexError).
  vm_compute. reflexivity.
Defined.

Lemma cipher_round_trip_witness :
  pad_store sample_pad sample_unused ∧
  [65; 66]%N ≠ [] ∧
  Forall (λ c, (c < 256)%N) [65; 66]%N ∧
  (∀ k, ¬ starved sample_pad sample_unused (message_int [65; 66]%N) k) ∧
  ∃ encrypted s',
    encrypt [65; 66]%N sample_pad (Store sample_unused sample_rng) =
      (Ok encrypted, s') ∧
    decrypt encrypted sample_pad = Ok [65; 66]%N.
Proof.
  assert (Forall (λ c, (c < 256)%N) [65; 66]%N) as Hbytes
    by (repeat constructor).
  split; [exact sample_pad_store|]. split; [discriminate|].
  split; [exact Hbytes|]. split; [exact sample_not_starved|].
  apply (cipher_round_trip [65; 66]%N sample_pad sample_unused sample_rng).
  - exact sample_pad_store.
  - discriminate.
  - exact Hbytes.
  - exact sample_not_starved.
Defined.

Lemma session_round_trip_witness :
  LibrariesSpec stored_libraries ∧
  pad_store (self_pad sample_session) (self_unused sample_session) ∧
  Forall (λ c, (c < 256)%N) [65; 66]%N ∧
  (encrypt_message (L := stored_libraries) [65; 66]%N sample_session).1 =
    Ok sample_ciphertext ∧
  decrypt_message (L := stored_libraries) sample_ciphertext
    (encrypt_message (L := stored_libraries) [65; 66]%N sample_session).2 =
  (Ok [65; 66]%N,
   (encrypt_message (L := stored_libraries) [65; 66]%N sample_session).2).
Proof.
  assert (Forall (λ c, (c < 256)%N) [65; 66]%N) as Hbytes
    by (repeat constructor).
  split; [exact stored_libraries_spec|]. split; [exact sample_pad_store|].
  split; [exact Hbytes|]. split; [vm_compute; reflexivity|].
  apply (@session_round_trip stored_libraries stored_libraries_spec
           [65; 66]%N sample_session sample_ciphertext).
  - exact sample_pad_store.
  - exact Hbytes.
  - vm_compute. reflexivity.
Defined.

Lemma receiver_decrypts_witness :
  LibrariesSpec stored_libraries ∧
  pad_store (self_pad sample_session) (self_unused sample_session) ∧
  Forall (λ c, (c < 256)%N) [65; 66]%N ∧
  (encrypt_message (L := stored_libraries) [65; 66]%N sample_session).1 =
    Ok sample_ciphertext ∧
  ∃ v1 idxs,
    decrypt_message (L := stored_libraries) sample_ciphertext sample_session =
      (Ok [65; 66]%N, v1) ∧
    self_pad v1 = self_pad sample_session ∧
    self_unused (encrypt_message (L := stored_libraries)
                   [65; 66]%N sample_session).2 =
      consume idxs (self_unused sample_session) ∧
    self_unused v1 = consume idxs (self_unused sample_session) ∧
    (self_unused sample_session = self_unused sample_session →
     self_unused v1 =
       self_unused (encrypt_message (L := stored_libraries)
                      [65; 66]%N sample_session).2).
Proof.
  assert (Forall (λ c, (c < 256)%N) [65; 66]%N) as Hbytes
    by (repeat constructor).
  split; [exact stored_libraries_spec|]. split; [exact sample_pad_store|].
  split; [exact Hbytes|]. split; [vm_compute; reflexivity|].
  apply (@receiver_decrypts stored_libraries stored_libraries_spec
           [65; 66]%N sample_session sample_ciphertext).
  - exact sample_pad_store.
  - exact Hbytes.
  - vm_compute. reflexivity.
  - reflexivity.
  - reflexivity.
Defined.
